(** * typed-app-router: a shallow embedding of [src/lib/index.ts]

    The development follows the latest variant of the router (the one that
    threads a typed parameter accumulator through the handler chain):

    - JavaScript strings, [String.prototype.split], [encodeURI] and
      [decodeURIComponent];
    - [Navigation.createFromUrl];
    - the handler chain ([PathHandler], [ParamHandler], [MultiParamHandler],
      [Subrouter], [CallbackHandler]) over a store of parameter objects and
      segment arrays;
    - the navigation sequencer [Router.navigate], split at its single
      [await] into the part that runs when the call is made and the part that
      runs when the route walk has completed. *)

From Stdlib Require Import NArith ZArith Ascii String DecimalString.
From stdpp Require Import base option list gmap fin_maps.

Set Warnings "-register-all".

(** ** JavaScript strings

    A JavaScript string is a sequence of 16-bit code units.  A code unit is
    an [N]; the well-formed ones are below [2^16]. *)

Definition jsstring : Type := list N.

Definition ch (a : ascii) : N := N_of_ascii a.

(** [js "abc"] is the JavaScript string literal ['abc'] (ASCII only). *)
Definition js (s : string) : jsstring := ch <$> list_ascii_of_string s.

Definition wf_jsstring (s : jsstring) : Prop := Forall (λ c, (c < 65536)%N) s.

(** Exceptions thrown by the modelled code. *)
Inductive exn : Type :=
  | URIError
  | Error (message : jsstring).

(** The outcome of a call that may throw. *)
Inductive completion (A : Type) : Type :=
  | Normal (v : A)
  | Throw (e : exn).
Arguments Normal {A} v.
Arguments Throw {A} e.

#[global] Instance completion_ret : MRet completion := @Normal.
#[global] Instance completion_bind : MBind completion := λ A B f c,
  match c with
  | Normal v => f v
  | Throw e => Throw e
  end.
#[global] Instance completion_fmap : FMap completion := λ A B f c,
  match c with
  | Normal v => Normal (f v)
  | Throw e => Throw e
  end.

(** *** [String.prototype.split] with a one-character separator

    [split_all sep s] is [s.split(sep)]: every maximal run between
    separators, empty runs included; the empty string gives [['']]. *)
Fixpoint split_all (sep : N) (s : jsstring) : list jsstring :=
  match s with
  | [] => [[]]
  | c :: s' =>
      if (c =? sep)%N then [] :: split_all sep s'
      else match split_all sep s' with
           | [] => [[c]]
           | w :: ws => (c :: w) :: ws
           end
  end.

(** [s.split(sep, limit)]: the pieces of [s.split(sep)], truncated to the
    first [limit] ones; what follows them is dropped. *)
Definition split (sep : N) (limit : option nat) (s : jsstring) : list jsstring :=
  match limit with
  | None => split_all sep s
  | Some n => take n (split_all sep s)
  end.

(** [parts[i] || '']: [undefined] and the empty string are both falsy. *)
Definition or_empty (o : option jsstring) : jsstring := default [] o.

(** *** [encodeURI] *)

Definition in_range (lo hi c : N) : bool := ((lo <=? c) && (c <=? hi))%N.

Definition is_alpha (c : N) : bool :=
  in_range (ch "a") (ch "z") c || in_range (ch "A") (ch "Z") c.
Definition is_digit (c : N) : bool := in_range (ch "0") (ch "9") c.

(** The characters [encodeURI] leaves as they are: uriReserved,
    uriUnescaped and ['#']. *)
Definition uri_unescaped (c : N) : bool :=
  is_alpha c || is_digit c
  || bool_decide (c ∈ js ";/?:@&=+$,")
  || bool_decide (c ∈ js "-_.!~*'()")
  || (c =? ch "#")%N.

Definition is_high_surrogate (c : N) : bool := in_range 0xD800 0xDBFF c.
Definition is_low_surrogate (c : N) : bool := in_range 0xDC00 0xDFFF c.

Definition surrogate_pair_code_point (hi lo : N) : N :=
  ((hi - 0xD800) * 0x400 + (lo - 0xDC00) + 0x10000)%N.

(** The UTF-8 octets of a code point. *)
Definition utf8_octets (cp : N) : list N :=
  if (cp <? 0x80)%N then [cp]
  else if (cp <? 0x800)%N then
    [N.lor 0xC0 (N.shiftr cp 6); N.lor 0x80 (N.land cp 0x3F)]
  else if (cp <? 0x10000)%N then
    [N.lor 0xE0 (N.shiftr cp 12);
     N.lor 0x80 (N.land (N.shiftr cp 6) 0x3F);
     N.lor 0x80 (N.land cp 0x3F)]
  else
    [N.lor 0xF0 (N.shiftr cp 18);
     N.lor 0x80 (N.land (N.shiftr cp 12) 0x3F);
     N.lor 0x80 (N.land (N.shiftr cp 6) 0x3F);
     N.lor 0x80 (N.land cp 0x3F)].

Definition hex_digit (d : N) : N :=
  if (d <? 10)%N then (ch "0" + d)%N else (ch "A" + (d - 10))%N.

(** ["%XY"] for one octet, upper-case hexadecimal. *)
Definition percent_octet (b : N) : jsstring :=
  [ch "%"; hex_digit (N.shiftr b 4); hex_digit (N.land b 0xF)].

Definition percent_encode (cp : N) : jsstring :=
  mjoin (percent_octet <$> utf8_octets cp).

(** ECMAScript's Encode: a character of the unescaped set is copied; any
    other code point is written as the percent-escapes of its UTF-8 octets;
    an unpaired surrogate throws a URIError. *)
Fixpoint Encode (unescaped : N → bool) (s : jsstring) : completion jsstring :=
  match s with
  | [] => Normal []
  | c :: s' =>
      if unescaped c then (c ::.) <$> Encode unescaped s'
      else if is_low_surrogate c then Throw URIError
      else if is_high_surrogate c then
        match s' with
        | d :: s'' =>
            if is_low_surrogate d then
              (percent_encode (surrogate_pair_code_point c d) ++.)
                <$> Encode unescaped s''
            else Throw URIError
        | [] => Throw URIError
        end
      else (percent_encode c ++.) <$> Encode unescaped s'
  end.

Definition encodeURI (s : jsstring) : completion jsstring :=
  Encode uri_unescaped s.

(** *** [decodeURIComponent] *)

Definition hex_value (c : N) : option N :=
  if is_digit c then Some (c - ch "0")%N
  else if in_range (ch "a") (ch "f") c then Some (c - ch "a" + 10)%N
  else if in_range (ch "A") (ch "F") c then Some (c - ch "A" + 10)%N
  else None.

(** One item of a string being decoded: a literal code unit, or the octet
    of a percent-escape. *)
Inductive uri_item : Type :=
  | Literal (c : N)
  | Octet (b : N).

(** First pass of Decode: every ['%'] must start a ["%XY"] escape. *)
Fixpoint uri_items (s : jsstring) : completion (list uri_item) :=
  match s with
  | [] => Normal []
  | c :: s1 =>
      if (c =? ch "%")%N then
        match s1 with
        | h :: l :: s3 =>
            match hex_value h, hex_value l with
            | Some hv, Some lv =>
                (Octet (16 * hv + lv)%N ::.) <$> uri_items s3
            | _, _ => Throw URIError
            end
        | _ => Throw URIError
        end
      else (Literal c ::.) <$> uri_items s1
  end.

Definition is_continuation (b : N) : bool := in_range 0x80 0xBF b.

(** The UTF-16 code units of a code point. *)
Definition utf16_units (cp : N) : jsstring :=
  if (cp <? 0x10000)%N then [cp]
  else [(0xD800 + N.shiftr (cp - 0x10000) 10)%N;
        (0xDC00 + N.land (cp - 0x10000) 0x3FF)%N].

(** Second pass of Decode: the octets must spell valid UTF-8 (no overlong
    form, no surrogate, nothing above U+10FFFF). *)
Fixpoint utf8_decode (items : list uri_item) : completion jsstring :=
  match items with
  | [] => Normal []
  | Literal c :: rest => (c ::.) <$> utf8_decode rest
  | Octet b :: rest =>
      if (b <? 0x80)%N then (b ::.) <$> utf8_decode rest
      else if in_range 0xC2 0xDF b then
        match rest with
        | Octet b1 :: rest' =>
            if is_continuation b1 then
              (utf16_units (N.lor (N.shiftl (N.land b 0x1F) 6)
                                  (N.land b1 0x3F)) ++.)
                <$> utf8_decode rest'
            else Throw URIError
        | _ => Throw URIError
        end
      else if in_range 0xE0 0xEF b then
        match rest with
        | Octet b1 :: Octet b2 :: rest' =>
            if in_range (if (b =? 0xE0)%N then 0xA0 else 0x80)
                        (if (b =? 0xED)%N then 0x9F else 0xBF) b1
               && is_continuation b2 then
              (utf16_units
                 (N.lor (N.shiftl (N.land b 0x0F) 12)
                    (N.lor (N.shiftl (N.land b1 0x3F) 6) (N.land b2 0x3F)))
                 ++.) <$> utf8_decode rest'
            else Throw URIError
        | _ => Throw URIError
        end
      else if in_range 0xF0 0xF4 b then
        match rest with
        | Octet b1 :: Octet b2 :: Octet b3 :: rest' =>
            if in_range (if (b =? 0xF0)%N then 0x90 else 0x80)
                        (if (b =? 0xF4)%N then 0x8F else 0xBF) b1
               && is_continuation b2 && is_continuation b3 then
              (utf16_units
                 (N.lor (N.shiftl (N.land b 0x07) 18)
                    (N.lor (N.shiftl (N.land b1 0x3F) 12)
                       (N.lor (N.shiftl (N.land b2 0x3F) 6)
                              (N.land b3 0x3F)))) ++.)
                <$> utf8_decode rest'
            else Throw URIError
        | _ => Throw URIError
        end
      else Throw URIError
  end.

Definition decodeURIComponent (s : jsstring) : completion jsstring :=
  uri_items s ≫= utf8_decode.

(** ** Values handed to validators and callbacks *)

Inductive value : Type :=
  | VUndefined
  | VString (s : jsstring)
  | VNumber (n : Z)
  | VBoolean (b : bool)
  | VArray (items : list value).

(** ** Navigation *)

Record Navigation : Type := mkNavigation {
  url : jsstring;
  path : jsstring;
  query : gmap jsstring jsstring;
  refs : gmap jsstring value;
  cancelled : bool
}.

(** [new Navigation(url, path, query)]: [refs] and [cancelled] take their
    defaults. *)
Definition Navigation_new (url path : jsstring)
    (query : gmap jsstring jsstring) : Navigation :=
  mkNavigation url path query ∅ false.

(** The [for (const queryPair of queryPairs)] loop of [createFromUrl]. *)
Fixpoint query_loop (queryPairs : list jsstring)
    (query : gmap jsstring jsstring) : completion (gmap jsstring jsstring) :=
  match queryPairs with
  | [] => Normal query
  | queryPair :: rest =>
      let splitPair := split (ch "=") (Some 2) queryPair in
      let key := or_empty (splitPair !! 0) in
      let value := or_empty (splitPair !! 1) in
      k ← decodeURIComponent key;
      v ← decodeURIComponent value;
      query_loop rest (<[k := v]> query)
  end.

Definition createFromUrl (url : jsstring) : completion Navigation :=
  url ← encodeURI url;
  if bool_decide (ch "?" ∈ url) then
    let parts := split (ch "?") (Some 2) url in
    let path := or_empty (parts !! 0) in
    let queryString := or_empty (parts !! 1) in
    let queryPairs := split (ch "&") None queryString in
    query ← query_loop queryPairs ∅;
    Normal (Navigation_new url path query)
  else
    Normal (Navigation_new url url ∅).

(** ** Validators

    The validation primitives come from the typed-validation package, which
    [src/lib/index.ts] imports and which is not part of the sources. *)

(** Modelled from the spec: [ValidationResult] of typed-validation, after
    the validator contract: a validator returns either a success carrying a
    possibly transformed value, or a failure. *)
Inductive ValidationResult (A : Type) : Type :=
  | Success (v : A)
  | Failure.
Arguments Success {A} v.
Arguments Failure {A}.

(** [result.success] and [result.value]. *)
Definition success {A} (r : ValidationResult A) : bool :=
  match r with Success _ => true | Failure => false end.

Definition result_value {A} (r : ValidationResult A) : option A :=
  match r with Success v => Some v | Failure => None end.

(** A JavaScript object used as a record of fields. *)
Abbreviation object := (gmap jsstring value).

(** [Validator<U>]: one assertion per field name. *)
Abbreviation Validator := (gmap jsstring (value → ValidationResult value)).

(** [ArrayValidator<U>]: one assertion on [Array<string>] per field name. *)
Abbreviation ArrayValidator :=
  (gmap jsstring (list jsstring → ValidationResult value)).

(** Modelled from the spec: [conformsTo(validator)] of typed-validation,
    given a named-field-shaped input, runs the assertion of every field of
    [validator] on that field of the input; it succeeds, with the object of
    the validated values, when all of them do. *)
Definition conformsTo (validator : Validator) (obj : object)
    : ValidationResult object :=
  let results :=
    map_imap (λ k f, Some (f (default VUndefined (obj !! k)))) validator in
  if bool_decide (map_Forall (λ _ r, success r = true) results)
  then Success (omap result_value results)
  else Failure.

(** Modelled from the spec: [validate(arg, assertion)] of typed-validation
    applies the assertion to the argument. *)
Definition validate {A B} (arg : A) (assertion : A → ValidationResult B)
    : ValidationResult B :=
  assertion arg.

(** Modelled from the spec: [isString()] of typed-validation accepts
    exactly the plain strings. *)
Definition isString (arg : value) : ValidationResult jsstring :=
  match arg with
  | VString s => Success s
  | _ => Failure
  end.

(** Modelled from the spec: the item loop of [eachItem] of
    typed-validation; every element is checked on its own. *)
Fixpoint each_item {T} (assertion : value → ValidationResult T)
    (items : list value) : ValidationResult (list T) :=
  match items with
  | [] => Success []
  | x :: rest =>
      match assertion x with
      | Failure => Failure
      | Success y =>
          match each_item assertion rest with
          | Failure => Failure
          | Success ys => Success (y :: ys)
          end
      end
  end.

(** Modelled from the spec: [eachItem(assertion, next)] of typed-validation
    checks every element, then runs [next] on the array of the checked
    elements as a whole. *)
Definition eachItem {T U} (assertion : value → ValidationResult T)
    (next : list T → ValidationResult U) (items : list value)
    : ValidationResult U :=
  match each_item assertion items with
  | Success ys => next ys
  | Failure => Failure
  end.

(** Modelled from the spec: [isArray(next)] of typed-validation accepts
    exactly the arrays and hands them to [next]. *)
Definition isArray {U} (next : list value → ValidationResult U) (arg : value)
    : ValidationResult U :=
  match arg with
  | VArray items => next items
  | _ => Failure
  end.

(** [src/lib/utils/index.ts]: the enumerable field names of an object. *)
Definition keysOf {A} (arg : gmap jsstring A) : list jsstring :=
  (map_to_list arg).*1.

(** ** The store the handlers run in

    The accumulators of parameters are JavaScript objects, the segment lists
    JavaScript arrays: both are passed by reference.  The store holds them;
    a reference is the index of the cell.  It also records the callbacks
    invoked so far. *)

Record Call : Type := mkCall {
  call_callback : nat;          (* which registered callback *)
  call_nav : nat;               (* the Navigation object it received *)
  call_params_ref : nat;        (* the parameter object it received *)
  call_params : object          (* what that object held at the call *)
}.

Record Store : Type := mkStore {
  objects : list object;
  arrays : list (list jsstring);
  calls : list Call
}.

Definition empty_store : Store := mkStore [] [] [].

(** Computations over the store; [None] is a dangling reference, which the
    type checker of the source excludes. *)
Definition M (A : Type) : Type := Store → option (A * Store).

#[global] Instance M_ret : MRet M := λ A x σ, Some (x, σ).
#[global] Instance M_bind : MBind M := λ A B f c σ,
  match c σ with
  | Some (x, σ') => f x σ'
  | None => None
  end.

(** The store with one more cell, or one more recorded call, at the end. *)
Definition with_object (props : object) (σ : Store) : Store :=
  mkStore (objects σ ++ [props]) (arrays σ) (calls σ).
Definition with_array (items : list jsstring) (σ : Store) : Store :=
  mkStore (objects σ) (arrays σ ++ [items]) (calls σ).
Definition with_call (c : Call) (σ : Store) : Store :=
  mkStore (objects σ) (arrays σ) (calls σ ++ [c]).

(** [{...}] and [Object.assign({}, ...)]: a new object. *)
Definition newObject (props : object) : M nat := λ σ,
  Some (length (objects σ), with_object props σ).

(** [[]], [split], [filter] and [slice]: a new array. *)
Definition newArray (items : list jsstring) : M nat := λ σ,
  Some (length (arrays σ), with_array items σ).

Definition readObject (r : nat) : M object := λ σ,
  (λ o, (o, σ)) <$> objects σ !! r.

Definition readArray (r : nat) : M (list jsstring) := λ σ,
  (λ a, (a, σ)) <$> arrays σ !! r.

(** [await this.callback(nav, params)].  The callback is application code:
    it is recorded with what it received, and is taken to complete and to
    leave the router's objects alone. *)
Definition record_call (c : Call) : M unit := λ σ, Some ((), with_call c σ).

Definition invoke (callback nav params : nat) : M unit :=
  props ← readObject params;
  record_call (mkCall callback nav params props).

(** ** Handlers *)

Record ICallbackHandlerOptions : Type := mkOptions {
  ignoreAdditionalPath : bool
}.

(** [Partial<ICallbackHandlerOptions>]: every field may be absent. *)
Record PartialOptions : Type := mkPartialOptions {
  partial_ignoreAdditionalPath : option bool
}.

Definition no_options : PartialOptions := mkPartialOptions None.

Inductive Handler : Type :=
  | PathHandler (pathComponents : list jsstring) (next : Handler)
  | ParamHandler (key : jsstring) (validator : Validator) (next : Handler)
  | MultiParamHandler (key : jsstring) (validator : Validator) (next : Handler)
  | Subrouter (handlers : list Handler)
  | CallbackHandler (callback : nat) (options : ICallbackHandlerOptions).

(** [path.split('/').filter(component => component.length !== 0)] *)
Definition path_components (path : jsstring) : list jsstring :=
  filter (λ component, length component ≠ 0) (split (ch "/") None path).

Definition PathHandler_new (path : jsstring) (next : Handler) : Handler :=
  PathHandler (path_components path) next.

Definition decimal (n : nat) : jsstring :=
  js (NilEmpty.string_of_uint (Nat.to_uint n)).

(** The constructor of [BaseParamHandler]: the validator must have exactly
    one field, whose name becomes [this.key]. *)
Definition BaseParamHandler_new {A} (validator : gmap jsstring A)
    : completion jsstring :=
  let keys := keysOf validator in
  match keys with
  | [key] => Normal key
  | _ => Throw (Error (js "Expected one validator, got " ++ decimal (length keys)))
  end.

Definition ParamHandler_new (validator : Validator) (next : Handler)
    : completion Handler :=
  key ← BaseParamHandler_new validator;
  Normal (ParamHandler key validator next).

Definition MultiParamHandler_new (arrayValidator : ArrayValidator)
    (next : Handler) : completion Handler :=
  key ← BaseParamHandler_new arrayValidator;
  let validator : Validator :=
    {[ key := isArray (eachItem isString
                         (default (λ _, Failure) (arrayValidator !! key))) ]} in
  Normal (MultiParamHandler key validator next).

Definition CallbackHandler_new (callback : nat) (options : PartialOptions)
    : Handler :=
  CallbackHandler callback
    (mkOptions (default false (partial_ignoreAdditionalPath options))).

(** The comparison loop of [PathHandler.route]:
    [for (i = 0; i < pathComponents.length; i++)
       if (subpath[i] !== pathComponents[i]) return false]. *)
Definition components_match (pathComponents subpath : list jsstring) : bool :=
  forallb (λ i, bool_decide (subpath !! i = pathComponents !! i))
          (seq 0 (length pathComponents)).

(** [ParamHandler.validate] *)
Definition ParamHandler_validate (key : jsstring) (validator : Validator)
    (subpath : nat) : M (ValidationResult object * nat) :=
  segments ← readArray subpath;
  let obj : object := {[ key := from_option VString VUndefined (segments !! 0) ]} in
  let result := validate obj (conformsTo validator) in
  newSubpath ← newArray (drop 1 segments);
  mret (result, newSubpath).

(** [MultiParamHandler.validate] *)
Definition MultiParamHandler_validate (key : jsstring) (validator : Validator)
    (subpath : nat) : M (ValidationResult object * nat) :=
  segments ← readArray subpath;
  let obj : object := {[ key := VArray (VString <$> segments) ]} in
  let result := validate obj (conformsTo validator) in
  newSubpath ← newArray [];
  mret (result, newSubpath).

(** [BaseParamHandler.route], over the [validate] of the subclass and the
    [route] of [this.next]. *)
Definition BaseParamHandler_route
    (validate_ : nat → M (ValidationResult object * nat))
    (next_route : nat → nat → M bool)
    (params subpath : nat) : M bool :=
  segments ← readArray subpath;
  if bool_decide (length segments = 0) then mret false
  else
    '(result, newSubpath) ← validate_ subpath;
    match result with
    | Failure => mret false
    | Success v =>
        props ← readObject params;
        merged ← newObject (v ∪ props);
        next_route merged newSubpath
    end.

(** The loop of [Subrouter.route] and [Router.route]:
    [for (const handler of this.handlers)
       if (await handler.route(...)) return true;
     return false]. *)
Fixpoint first_handled (attempts : list (M bool)) : M bool :=
  match attempts with
  | [] => mret false
  | attempt :: rest =>
      attempt ≫= λ handled : bool,
      if handled then mret true else first_handled rest
  end.

(** [route(nav, params, subpath)] of the five kinds of handler.  [params]
    and [subpath] are references into the store; [nav] is the reference of
    the Navigation, which handlers only pass on. *)
Fixpoint route (h : Handler) (nav params subpath : nat) {struct h} : M bool :=
  match h with
  | PathHandler pathComponents next =>
      segments ← readArray subpath;
      if bool_decide (length segments < length pathComponents) then mret false
      else if negb (components_match pathComponents segments) then mret false
      else
        newSubpath ← newArray (drop (length pathComponents) segments);
        route next nav params newSubpath
  | ParamHandler key validator next =>
      BaseParamHandler_route (ParamHandler_validate key validator)
        (route next nav) params subpath
  | MultiParamHandler key validator next =>
      BaseParamHandler_route (MultiParamHandler_validate key validator)
        (route next nav) params subpath
  | Subrouter handlers =>
      first_handled ((λ handler, route handler nav params subpath) <$> handlers)
  | CallbackHandler callback options =>
      segments ← readArray subpath;
      if negb (ignoreAdditionalPath options)
         && negb (bool_decide (length segments = 0))
      then mret false
      else invoke callback nav params;; mret true
  end.

(** One turn of the loop of [Router.route]:
    [handler.route(nav, {}, pathComponents)]. *)
Definition Router_attempt (nav pathComponents : nat) (handler : Handler)
    : M bool :=
  params ← newObject ∅;
  route handler nav params pathComponents.

(** [Router.route]: the path is cut into segments once, and every top-level
    entry gets a new empty parameter object. *)
Definition Router_route (handlers : list Handler) (nav : nat) (path : jsstring)
    : M bool :=
  pathComponents ← newArray (path_components path);
  first_handled (Router_attempt nav pathComponents <$> handlers).

(** *** Assembling a router

    [path], [param] and [multiparam] push an entry whose continuation is a
    new [Subrouter] and return that subrouter for further registrations.
    Here the subrouter is given by the entries it ends up with. *)

Definition BaseRouter_path (path : jsstring) (sub : list Handler)
    (handlers : list Handler) : list Handler :=
  handlers ++ [PathHandler_new path (Subrouter sub)].

Definition BaseRouter_register (callback : nat) (options : PartialOptions)
    (handlers : list Handler) : list Handler :=
  handlers ++ [CallbackHandler_new callback options].

Definition BaseRouter_param (validator : Validator) (sub : list Handler)
    (handlers : list Handler) : completion (list Handler) :=
  h ← ParamHandler_new validator (Subrouter sub);
  Normal (handlers ++ [h]).

Definition BaseRouter_multiparam (validator : ArrayValidator)
    (sub : list Handler) (handlers : list Handler)
    : completion (list Handler) :=
  h ← MultiParamHandler_new validator (Subrouter sub);
  Normal (handlers ++ [h]).

(** ** The navigation sequencer

    [Navigation] objects are passed by reference and their [cancelled] field
    is written after they were handed out: [navs] holds them, a reference is
    the index of the cell.  [navigated] and [setUrl_calls] record what was
    emitted on [navigatedEvent] and what the history adapter was asked to
    persist, oldest first. *)

Record Router : Type := mkRouter {
  handlers : list Handler;
  navs : list Navigation;
  _currentNav : option nat;
  nextNav : option nat;
  navigated : list nat;
  setUrl_calls : list nat;
  store : Store
}.

Definition Router_new (handlers : list Handler) : Router :=
  mkRouter handlers [] None None [] [] empty_store.

Definition currentNav (r : Router) : option nat := _currentNav r.

(** [nav.cancelled = true] on the object behind a reference. *)
Definition set_cancelled (n : nat) (navs : list Navigation) : list Navigation :=
  alter (λ nav, mkNavigation (url nav) (path nav) (query nav) (refs nav) true)
        n navs.

(** [setCurrentNav(nav); this.browserApi.setUrl(nav)] *)
Definition commit (n : nat) (r : Router) : Router :=
  mkRouter (handlers r) (navs r) (Some n) (nextNav r)
           (navigated r ++ [n]) (setUrl_calls r ++ [n]) (store r).

(** The argument of [navigate]: [Navigation | string]. *)
Inductive NavigateArg : Type :=
  | Url (url : jsstring)
  | Nav (nav : nat).

(** Where a call of [navigate] stands after its first part. *)
Inductive Started : Type :=
  | Returned (result : bool)
      (* returned before routing *)
  | Rejected (e : exn)
      (* [createFromUrl] threw *)
  | Awaiting (nav : nat) (handled : bool).
      (* suspended at [await this.route(nav)]; the walk yields [handled] *)

(** [navigate], from the call to [await this.route(nav)].  The handlers
    read nothing but the tree of handlers and the cells they are given, so
    the answer of the walk is fixed when the walk starts; it is computed
    here and handed to the caller when the walk completes. *)
Definition navigate_start (arg : NavigateArg) (r : Router)
    : option (Started * Router) :=
  if bool_decide (length (handlers r) = 0) then Some (Returned false, r)
  else
    let navs1 :=
      match nextNav r with
      | Some pending => set_cancelled pending (navs r)
      | None => navs r
      end in
    let created :=
      match arg with
      | Url u =>
          match createFromUrl u with
          | Normal nav => Normal (length navs1, navs1 ++ [nav])
          | Throw e => Throw e
          end
      | Nav n => Normal (n, navs1)
      end in
    match created with
    | Throw e =>
        Some (Rejected e,
              mkRouter (handlers r) navs1 (_currentNav r) (nextNav r)
                       (navigated r) (setUrl_calls r) (store r))
    | Normal (n, navs2) =>
        nav ← navs2 !! n;
        '(handled, σ) ← Router_route (handlers r) n (path nav) (store r);
        Some (Awaiting n handled,
              mkRouter (handlers r) navs2 (_currentNav r) (Some n)
                       (navigated r) (setUrl_calls r) σ)
    end.

(** [navigate], from the completion of [await this.route(nav)] to the
    [return]. *)
Definition navigate_resume (n : nat) (handled : bool) (r : Router)
    : option (bool * Router) :=
  nav ← navs r !! n;
  let r1 := mkRouter (handlers r) (navs r) (_currentNav r) None
                     (navigated r) (setUrl_calls r) (store r) in
  if handled && negb (cancelled nav)
  then Some (handled, commit n r1)
  else Some (handled, r1).

(** *** Interleavings

    JavaScript runs each of the two parts of [navigate] to completion; other
    calls may run between them.  A schedule lists calls of [navigate] and
    completions of route walks in the order they happen. *)

Inductive Task : Type :=
  | Pending (nav : nat) (handled : bool)
  | Resolved (result : bool)
  | Failed (e : exn).

Record Machine : Type := mkMachine {
  router : Router;
  tasks : list Task          (* one per call of [navigate], in call order *)
}.

Inductive Event : Type :=
  | Navigate (arg : NavigateArg)
  | WalkCompletes (call : nat).

Definition step (e : Event) (m : Machine) : option Machine :=
  match e with
  | Navigate arg =>
      '(started, r) ← navigate_start arg (router m);
      let task :=
        match started with
        | Returned b => Resolved b
        | Rejected e => Failed e
        | Awaiting n handled => Pending n handled
        end in
      Some (mkMachine r (tasks m ++ [task]))
  | WalkCompletes i =>
      match tasks m !! i with
      | Some (Pending n handled) =>
          '(result, r) ← navigate_resume n handled (router m);
          Some (mkMachine r (<[i := Resolved result]> (tasks m)))
      | _ => None
      end
  end.

Fixpoint run (schedule : list Event) (m : Machine) : option Machine :=
  match schedule with
  | [] => Some m
  | e :: rest => step e m ≫= run rest
  end.

Definition boot (handlers : list Handler) : Machine :=
  mkMachine (Router_new handlers) [].

(** ** What the specification says of [createFromUrl]

    [before sep s] is the text of [s] in front of its first [sep] (all of
    [s] when there is none); [after sep s] is the text behind its first
    [sep] (empty when there is none). *)

Fixpoint before (sep : N) (s : jsstring) : jsstring :=
  match s with
  | [] => []
  | c :: s' => if (c =? sep)%N then [] else c :: before sep s'
  end.

Fixpoint after (sep : N) (s : jsstring) : jsstring :=
  match s with
  | [] => []
  | c :: s' => if (c =? sep)%N then s' else after sep s'
  end.

(** The text between the first and the second [sep]. *)
Definition second_field (sep : N) (s : jsstring) : jsstring :=
  before sep (after sep s).

Fixpoint decoded_pairs (tail : N → jsstring → jsstring)
    (queryPairs : list jsstring) : completion (list (jsstring * jsstring)) :=
  match queryPairs with
  | [] => Normal []
  | queryPair :: rest =>
      k ← decodeURIComponent (before (ch "=") queryPair);
      v ← decodeURIComponent (tail (ch "=") queryPair);
      kvs ← decoded_pairs tail rest;
      Normal ((k, v) :: kvs)
  end.

(** Later pairs override earlier ones. *)
Definition query_of_pairs (kvs : list (jsstring * jsstring))
    : gmap jsstring jsstring :=
  foldl (λ q kv, <[kv.1 := kv.2]> q) ∅ kvs.

(** [createFromUrl] in the words of the specification: the encoded URL is
    cut at its first ['?'] into a path and a query string; every
    ['&']-separated pair is cut at its first ['='] into a key and a value,
    each percent-decoded on its own.  [tail sep s] says what is taken as the
    second part of a cut: with [after] it is all that follows the first
    separator. *)
Definition described_createFromUrl (tail : N → jsstring → jsstring)
    (url : jsstring) : completion Navigation :=
  url ← encodeURI url;
  if bool_decide (ch "?" ∈ url) then
    kvs ← decoded_pairs tail (split_all (ch "&") (tail (ch "?") url));
    Normal (Navigation_new url (before (ch "?") url) (query_of_pairs kvs))
  else Normal (Navigation_new url url ∅).

(** ** [encodeURI], piece by piece *)

(** The Unicode scalar values: the code points that are not surrogates. *)
Definition scalar (cp : N) : bool :=
  (cp <? 0x110000)%N && negb (in_range 0xD800 0xDFFF cp).

(** [encodes s e]: [e] is [s] with the characters of the unescaped set
    copied and every other code point replaced by its escape. *)
Inductive encodes : jsstring → jsstring → Prop :=
  | encodes_nil : encodes [] []
  | encodes_literal c s e :
      uri_unescaped c = true → encodes s e → encodes (c :: s) (c :: e)
  | encodes_escape cp s e :
      scalar cp = true →
      Forall (λ c, uri_unescaped c = false) (utf16_units cp) →
      encodes s e →
      encodes (utf16_units cp ++ s) (percent_encode cp ++ e).

(** The key and the value of a query pair, as they are written. *)
Definition raw_pair (queryPair : jsstring) : jsstring * jsstring :=
  (before (ch "=") queryPair, second_field (ch "=") queryPair).

(** ** The routers of the scenarios *)

Fixpoint digits_value (acc : Z) (s : jsstring) : option Z :=
  match s with
  | [] => Some acc
  | c :: s' =>
      if is_digit c then digits_value (10 * acc + Z.of_N (c - ch "0")) s'
      else None
  end.

(** A validator accepting numeric strings, converting them to numbers. *)
Definition numeric (arg : value) : ValidationResult value :=
  match arg with
  | VString (c :: s) =>
      match digits_value 0 (c :: s) with
      | Some n => Success (VNumber n)
      | None => Failure
      end
  | _ => Failure
  end.

Definition idValidator : Validator := {[ js "id" := numeric ]}.

(** [router.path("users").param(idValidator).register(cb)] *)
Definition users_router (cb : nat) : completion (list Handler) :=
  sub ← BaseRouter_param idValidator (BaseRouter_register cb no_options []) [];
  Normal (BaseRouter_path (js "users") sub []).

Definition segmentsValidator : ArrayValidator :=
  {[ js "segments" := λ segments, Success (VArray (VString <$> segments)) ]}.

(** [router.path("files").multiparam(segmentsValidator).register(cb)] *)
Definition files_router (cb : nat) : completion (list Handler) :=
  sub ← BaseRouter_multiparam segmentsValidator
           (BaseRouter_register cb no_options []) [];
  Normal (BaseRouter_path (js "files") sub []).

(** [router.path("a/b").register(cb, options)] *)
Definition literal_router (cb : nat) (options : PartialOptions) : list Handler :=
  BaseRouter_path (js "a/b") (BaseRouter_register cb options []) [].

(** [router.param(idValidator).path("x").register(cb1);
     router.path("42").register(cb2)] *)
Definition overlapping_router (cb1 cb2 : nat) : completion (list Handler) :=
  hs ← BaseRouter_param idValidator
         (BaseRouter_path (js "x") (BaseRouter_register cb1 no_options []) []) [];
  Normal (BaseRouter_path (js "42") (BaseRouter_register cb2 no_options []) hs).

(** ** Properties of stores and handlers used in the statements *)

(** [σ'] has every cell and every recorded call of [σ], unchanged, and
    possibly more after them. *)
Definition extends (σ σ' : Store) : Prop :=
  objects σ `prefix_of` objects σ'
  ∧ arrays σ `prefix_of` arrays σ'
  ∧ calls σ `prefix_of` calls σ'.

(** What a run of a handler leaves behind: every earlier cell unchanged; no
    callback invoked when it fails, exactly one when it succeeds. *)
Definition outcome_ok (σ : Store) (handled : bool) (σ' : Store) : Prop :=
  extends σ σ'
  ∧ if handled then ∃ c, calls σ' = calls σ ++ [c] else calls σ' = calls σ.

(** Every pending call of [navigate] holds a live Navigation. *)
Definition pending_valid (m : Machine) : Prop :=
  ∀ i n handled,
    tasks m !! i = Some (Pending n handled) → is_Some (navs (router m) !! n).

Definition is_param_matcher (h : Handler) : Prop :=
  match h with
  | ParamHandler _ _ _ | MultiParamHandler _ _ _ => True
  | _ => False
  end.

(** Induction over a handler tree, subrouter entries included. *)
Section Handler_induction.
Variable P : Handler → Prop.
Hypothesis HPath : ∀ pathComponents next,
  P next → P (PathHandler pathComponents next).
Hypothesis HParam : ∀ key validator next,
  P next → P (ParamHandler key validator next).
Hypothesis HMulti : ∀ key validator next,
  P next → P (MultiParamHandler key validator next).
Hypothesis HSub : ∀ handlers, Forall P handlers → P (Subrouter handlers).
Hypothesis HCallback : ∀ callback options, P (CallbackHandler callback options).

Fixpoint Handler_tree_ind (h : Handler) : P h :=
  match h with
  | PathHandler pathComponents next => HPath pathComponents next (Handler_tree_ind next)
  | ParamHandler key validator next => HParam key validator next (Handler_tree_ind next)
  | MultiParamHandler key validator next => HMulti key validator next (Handler_tree_ind next)
  | Subrouter handlers =>
      HSub handlers
        ((fix entries (hs : list Handler) : Forall P hs :=
            match hs with
            | [] => @List.Forall_nil _ P
            | h' :: hs' =>
                @List.Forall_cons _ P h' hs' (Handler_tree_ind h') (entries hs')
            end) handlers)
  | CallbackHandler callback options => HCallback callback options
  end.
End Handler_induction.

(** ** The cookie-backed history adapter

    [FallbackBrowserApi] keeps the visited paths in one cookie, joined by
    ['|'].  The browser-cookies package is not part of the sources; its
    jar is modelled as the cell the adapter reads back what it stored in. *)

(** [hist.join(sep)] on an array of strings. *)
Fixpoint join (sep : jsstring) (items : list jsstring) : jsstring :=
  match items with
  | [] => []
  | [item] => item
  | item :: rest => item ++ sep ++ join sep rest
  end.

(** What the adapter acts on: the value of the history cookie ([None] when
    the cookie is not set) and the URLs assigned to [window.location.href],
    oldest first. *)
Record Browser : Type := mkBrowser {
  cookie : option jsstring;
  hrefs : list jsstring
}.

Definition getHistory (b : Browser) : list jsstring :=
  match cookie b with
  | Some histStr => split (ch "|") None histStr
  | None => []
  end.

Definition setHistory (hist : list jsstring) (b : Browser) : Browser :=
  if bool_decide (length hist = 0) then mkBrowser None (hrefs b)
  else mkBrowser (Some (join (js "|") hist)) (hrefs b).

(** [window.location.href = url] *)
Definition set_href (url : jsstring) (b : Browser) : Browser :=
  mkBrowser (cookie b) (hrefs b ++ [url]).

(** [setUrl(nav)], where [currentPath()] answers [current]. *)
Definition FallbackBrowserApi_setUrl (current : jsstring) (nav : Navigation)
    (b : Browser) : Browser :=
  if bool_decide (current ≠ url nav) then
    let hist := getHistory b ++ [current] in
    set_href (url nav) (setHistory hist b)
  else b.

(** [back()]: [hist.pop()] gives the last entry, or [undefined] on an empty
    array. *)
Definition FallbackBrowserApi_back (b : Browser) : Browser :=
  let hist := getHistory b in
  match last hist with
  | Some url => set_href url (setHistory (removelast hist) b)
  | None => b
  end.

Definition FallbackBrowserApi_clearHistory (b : Browser) : Browser :=
  setHistory [] b.

(** One call of [setUrl], given as the pair of the path the browser is at
    and the Navigation it is sent to. *)
Definition visit (b : Browser) (v : jsstring * Navigation) : Browser :=
  FallbackBrowserApi_setUrl v.1 v.2 b.

(** ** What a route walk computes

    The [route] methods read as one function of the handler tree, the
    accumulated parameters and the remaining segments: the callback the walk
    ends in and the parameters it hands to it, or [None] when no entry
    matches.  [route_realises] shows that the walk in the store computes
    exactly this. *)

(** The first entry of a list for which [f] answers. *)
Definition first_some {A B} (f : A → option B) (l : list A) : option B :=
  head (omap f l).

Fixpoint dispatch (h : Handler) (props : object) (segments : list jsstring)
    {struct h} : option (nat * object) :=
  match h with
  | PathHandler pathComponents next =>
      if decide (take (length pathComponents) segments = pathComponents)
      then dispatch next props (drop (length pathComponents) segments)
      else None
  | ParamHandler key validator next =>
      match segments with
      | [] => None
      | segment :: rest =>
          match conformsTo validator {[ key := VString segment ]} with
          | Success v => dispatch next (v ∪ props) rest
          | Failure => None
          end
      end
  | MultiParamHandler key validator next =>
      match segments with
      | [] => None
      | _ :: _ =>
          match conformsTo validator {[ key := VArray (VString <$> segments) ]} with
          | Success v => dispatch next (v ∪ props) []
          | Failure => None
          end
      end
  | Subrouter handlers =>
      first_some (λ handler, dispatch handler props segments) handlers
  | CallbackHandler callback options =>
      if ignoreAdditionalPath options || bool_decide (segments = [])
      then Some (callback, props)
      else None
  end.

Definition Router_dispatch (handlers : list Handler) (path : jsstring)
    : option (nat * object) :=
  first_some (λ handler, dispatch handler ∅ (path_components path)) handlers.

(** The callbacks invoked between two stores: which callback, with which
    Navigation and which parameters. *)
Definition new_calls (σ σ' : Store) : list (nat * nat * object) :=
  (λ c, (call_callback c, call_nav c, call_params c))
    <$> drop (length (calls σ)) (calls σ').

(** What a caller can observe of a walk: its answer and the callbacks it
    invoked. *)
Definition walk (h : Handler) (nav params subpath : nat) (σ : Store)
    : option (bool * list (nat * nat * object)) :=
  (λ r, (r.1, new_calls σ r.2)) <$> route h nav params subpath σ.

Definition Router_walk (handlers : list Handler) (nav : nat) (path : jsstring)
    (σ : Store) : option (bool * list (nat * nat * object)) :=
  (λ r, (r.1, new_calls σ r.2)) <$> Router_route handlers nav path σ.

(** The observation that goes with a result of [dispatch]. *)
Definition walk_outcome (nav : nat) (d : option (nat * object))
    : bool * list (nat * nat * object) :=
  match d with
  | Some (callback, props) => (true, [(callback, nav, props)])
  | None => (false, [])
  end.

(** [r], the result of a walk started in [σ], is the one [d] stands for:
    the walk ends, leaves every earlier cell as it was, answers whether [d]
    names a callback, and has invoked that callback and no other. *)
Definition realises (nav : nat) (σ : Store) (d : option (nat * object))
    (r : option (bool * Store)) : Prop :=
  ∃ σ', r = Some ((walk_outcome nav d).1, σ') ∧ extends σ σ'
        ∧ new_calls σ σ' = (walk_outcome nav d).2.

(** An entry that cannot match an empty list of segments. *)
Definition needs_segment (h : Handler) : Prop :=
  match h with
  | PathHandler (_ :: _) _ | ParamHandler _ _ _ | MultiParamHandler _ _ _ => True
  | _ => False
  end.

(** ** Further properties of the sequencer and of [createFromUrl] *)

(** Every announcement on [navigatedEvent] went with a call of [setUrl] for
    the same Navigation, and the current Navigation is the last one
    announced. *)
Definition history_consistent (r : Router) : Prop :=
  navigated r = setUrl_calls r
  ∧ currentNav r = last (navigated r)
  ∧ Forall (λ n, n < length (navs r)) (navigated r).

(** The surrogate code units. *)
Definition is_surrogate (c : N) : bool := in_range 0xD800 0xDFFF c.

(** * Theorems *)

(** ** [split], [before] and [after] *)

Section Splitting.
Variable sep : N.

Lemma after_not_elem_of (s : jsstring) : sep ∉ s → after sep s = [].
Proof.
  induction s as [|c s IH]; [done|]. intros Hs.
  apply not_elem_of_cons in Hs as [Hc Hs]. simpl.
  destruct (N.eqb_spec c sep); [congruence | auto].
Qed.

Lemma before_not_elem_of (s : jsstring) : sep ∉ s → before sep s = s.
Proof.
  induction s as [|c s IH]; [done|]. intros Hs.
  apply not_elem_of_cons in Hs as [Hc Hs]. simpl.
  destruct (N.eqb_spec c sep); [congruence | by rewrite IH].
Qed.

Lemma before_after (s : jsstring) :
  sep ∈ s → s = before sep s ++ sep :: after sep s.
Proof.
  induction s as [|c s IH]; [by intros ?%elem_of_nil|]. intros Hs. simpl.
  destruct (N.eqb_spec c sep) as [->|Hne]; [done|].
  apply elem_of_cons in Hs as [?|Hs]; [congruence|].
  simpl. f_equal. by apply IH.
Qed.

Lemma before_no_sep (s : jsstring) : sep ∉ before sep s.
Proof.
  induction s as [|c s IH]; simpl; [apply not_elem_of_nil|].
  destruct (N.eqb_spec c sep); [apply not_elem_of_nil|].
  apply not_elem_of_cons. auto.
Qed.

(** The pieces of [s.split(sep)]: the text before the first separator,
    then the pieces of what follows it. *)
Lemma split_all_unfold (s : jsstring) :
  split_all sep s =
    before sep s ::
      (if bool_decide (sep ∈ s) then split_all sep (after sep s) else []).
Proof.
  induction s as [|c s IH]; [done|]. simpl.
  destruct (N.eqb_spec c sep) as [->|Hne].
  - rewrite bool_decide_eq_true_2; [done | by left].
  - rewrite IH. f_equal.
    destruct (decide (sep ∈ s)) as [Hin|Hin].
    + rewrite !bool_decide_eq_true_2; [done | by right | done].
    + rewrite !bool_decide_eq_false_2; [done | | done].
      intros [?|?]%elem_of_cons; congruence.
Qed.

Lemma split_first (limit : nat) (s : jsstring) :
  or_empty (split sep (Some (S limit)) s !! 0) = before sep s.
Proof. unfold split. by rewrite split_all_unfold. Qed.

Lemma split_second (limit : nat) (s : jsstring) :
  or_empty (split sep (Some (S (S limit))) s !! 1) = second_field sep s.
Proof.
  unfold split, second_field. rewrite split_all_unfold. simpl.
  case_bool_decide as Hin.
  - by rewrite split_all_unfold.
  - by rewrite after_not_elem_of.
Qed.

Lemma split_all_Forall (P : N → Prop) (s : jsstring) :
  Forall P s → Forall (Forall P) (split_all sep s).
Proof.
  induction 1 as [|c s Hc Hs IH]; simpl.
  - by repeat constructor.
  - destruct (c =? sep)%N; [by constructor|].
    destruct (split_all sep s) as [|w ws]; [by repeat constructor|].
    apply Forall_cons in IH as [Hw Hws]. by repeat constructor.
Qed.

Lemma before_Forall (P : N → Prop) (s : jsstring) :
  Forall P s → Forall P (before sep s).
Proof.
  induction 1 as [|c s Hc Hs IH]; simpl; [done|].
  destruct (c =? sep)%N; by constructor.
Qed.

Lemma after_Forall (P : N → Prop) (s : jsstring) :
  Forall P s → Forall P (after sep s).
Proof.
  induction 1 as [|c s Hc Hs IH]; simpl; [done|].
  by destruct (c =? sep)%N.
Qed.
End Splitting.

(** ** [createFromUrl] against its description *)

Lemma query_loop_decoded_pairs (queryPairs : list jsstring)
    (q : gmap jsstring jsstring) :
  query_loop queryPairs q =
    kvs ← decoded_pairs second_field queryPairs;
    Normal (foldl (λ q kv, <[kv.1 := kv.2]> q) q kvs).
Proof.
  revert q. induction queryPairs as [|queryPair rest IH]; intros q; [done|].
  cbn [query_loop decoded_pairs].
  rewrite split_first, split_second.
  destruct (decodeURIComponent (before _ queryPair)) as [k|]; [|done].
  destruct (decodeURIComponent (second_field _ queryPair)) as [v|]; [|done].
  cbn. rewrite IH. by destruct (decoded_pairs second_field rest).
Qed.

Lemma createFromUrl_described (u : jsstring) :
  createFromUrl u = described_createFromUrl second_field u.
Proof.
  unfold createFromUrl, described_createFromUrl.
  destruct (encodeURI u) as [e|]; [|done]. cbn [mbind completion_bind].
  case_bool_decide; [|done].
  rewrite split_first, split_second, query_loop_decoded_pairs.
  by destruct (decoded_pairs _ _).
Qed.


(** ** [encodeURI] and [decodeURIComponent] *)

Lemma percent_encode_head (cp : N) :
  ∃ rest, percent_encode cp = ch "%" :: rest.
Proof.
  unfold percent_encode, utf8_octets.
  repeat case_match; cbn [fmap list_fmap mjoin list_join percent_octet app];
    eauto.
Qed.

Lemma percent_encode_length (cp : N) : 3 ≤ length (percent_encode cp).
Proof.
  unfold percent_encode, utf8_octets.
  repeat case_match; cbn [fmap list_fmap mjoin list_join percent_octet app length];
    lia.
Qed.

Section Encode.
Variable unescaped : N → bool.

Lemma Encode_unescaped (s : jsstring) :
  Forall (λ c, unescaped c = true) s → Encode unescaped s = Normal s.
Proof.
  induction 1 as [|c s Hc Hs IH]; [done|].
  cbn [Encode]. by rewrite Hc, IH.
Qed.

(** What [Encode] does at the front of a string, whatever the case. *)
Lemma Encode_cons (c : N) (s r : jsstring) :
  Encode unescaped (c :: s) = Normal r →
  (unescaped c = true ∧ ∃ r', Encode unescaped s = Normal r' ∧ r = c :: r')
  ∨ (unescaped c = false ∧
     ∃ cp s' r', Encode unescaped s' = Normal r'
                 ∧ r = percent_encode cp ++ r'
                 ∧ length s' ≤ length s ≤ S (length s')
                 ∧ (s' = s → cp = c)).
Proof.
  cbn [Encode]. destruct (unescaped c) eqn:Hc.
  - destruct (Encode unescaped s) as [r'|] eqn:Hs; [|done].
    intros [= <-]. left. eauto.
  - destruct (is_low_surrogate c); [done|].
    destruct (is_high_surrogate c).
    + destruct s as [|d s'']; [done|].
      destruct (is_low_surrogate d); [|done].
      destruct (Encode unescaped s'') as [r'|] eqn:Hs; [|done].
      intros [= <-]. right. split; [done|].
      eexists _, s'', r'. split_and!; [done | done | simpl; lia | simpl; lia |].
      intros Heq. apply (f_equal length) in Heq. simpl in Heq. lia.
    + destruct (Encode unescaped s) as [r'|] eqn:Hs; [|done].
      intros [= <-]. right. split; [done|].
      eexists c, s, r'. split_and!; done || lia.
Qed.

Lemma Encode_length (s r : jsstring) :
  Encode unescaped s = Normal r → length s ≤ length r.
Proof.
  remember (length s) as n eqn:Hn. revert s r Hn.
  induction n as [n IH] using lt_wf_ind. intros [|c s] r -> Hr.
  { simpl. lia. }
  apply Encode_cons in Hr as [(_ & r' & Hs & ->)|(_ & cp & s' & r' & Hs & -> & Hlen & _)].
  - simpl. apply (IH (length s)) in Hs; [lia | simpl; lia | done].
  - rewrite length_app. pose proof (percent_encode_length cp).
    apply (IH (length s')) in Hs; [simpl; lia | simpl; lia | done].
Qed.
End Encode.

Section Encode_fixed_points.
Variable unescaped : N → bool.
Hypothesis percent_escaped : unescaped (ch "%") = false.

(** A string [Encode] gives back unchanged has nothing to escape. *)
Lemma Encode_fixed_point (s : jsstring) :
  Encode unescaped s = Normal s → Forall (λ c, unescaped c = true) s.
Proof.
  induction s as [|c s IH]; [done|]. intros Hs.
  apply Encode_cons in Hs
    as [(Hc & r' & Hs & [= <-])|(Hc & cp & s' & r' & Hs & Hr & Hlen & _)].
  - constructor; auto.
  - exfalso. destruct (percent_encode_head cp) as [rest Hcp].
    pose proof (percent_encode_length cp) as H3.
    apply Encode_length in Hs.
    apply (f_equal length) in Hr. rewrite length_app in Hr. simpl in Hr. lia.
Qed.

(** An escape starts with ['%'], so an output with nothing to escape
    comes from an input with nothing to escape. *)
Lemma Encode_output_unescaped (s r : jsstring) :
  Encode unescaped s = Normal r →
  Forall (λ c, unescaped c = true) r → Forall (λ c, unescaped c = true) s.
Proof.
  revert r. induction s as [|c s IH]; [done|]. intros r Hs Hr.
  apply Encode_cons in Hs
    as [(Hc & r' & Hs & ->)|(Hc & cp & s' & r' & Hs & -> & _)].
  - apply Forall_cons in Hr as [_ Hr]. constructor; eauto.
  - exfalso. destruct (percent_encode_head cp) as [rest Hcp].
    rewrite Hcp in Hr. apply Forall_cons in Hr as [Hp _]. congruence.
Qed.
End Encode_fixed_points.

Lemma uri_unescaped_percent : uri_unescaped (ch "%") = false.
Proof. reflexivity. Qed.

Lemma uri_items_literal (s : jsstring) :
  ch "%" ∉ s → uri_items s = Normal (Literal <$> s).
Proof.
  induction s as [|c s IH]; [done|].
  intros [Hc Hs]%not_elem_of_cons. cbn [uri_items].
  destruct (N.eqb_spec c (ch "%")); [done|]. by rewrite IH.
Qed.

Lemma utf8_decode_literal (s : jsstring) :
  utf8_decode (Literal <$> s) = Normal s.
Proof. induction s as [|c s IH]; [done|]. cbn. by rewrite IH. Qed.

(** Without a ['%'] there is nothing to decode. *)
Lemma decodeURIComponent_literal (s : jsstring) :
  ch "%" ∉ s → decodeURIComponent s = Normal s.
Proof.
  intros Hs. unfold decodeURIComponent. rewrite uri_items_literal by done.
  apply utf8_decode_literal.
Qed.

Lemma unescaped_no_percent (s : jsstring) :
  Forall (λ c, uri_unescaped c = true) s → ch "%" ∉ s.
Proof.
  intros Hs Hin. rewrite Forall_forall in Hs. apply Hs in Hin.
  by rewrite uri_unescaped_percent in Hin.
Qed.

Lemma decoded_pairs_unescaped (queryPairs : list jsstring) :
  Forall (Forall (λ c, uri_unescaped c = true)) queryPairs →
  decoded_pairs second_field queryPairs =
    Normal ((λ p, (before (ch "=") p, second_field (ch "=") p)) <$> queryPairs).
Proof.
  induction 1 as [|p ps Hp Hps IH]; [done|]. cbn [decoded_pairs].
  rewrite !decodeURIComponent_literal, IH; [done | |];
    apply unescaped_no_percent;
    unfold second_field; auto using before_Forall, after_Forall.
Qed.

Lemma createFromUrl_url (u : jsstring) (nav : Navigation) :
  createFromUrl u = Normal nav → encodeURI u = Normal (url nav).
Proof.
  unfold createFromUrl. destruct (encodeURI u) as [e|]; [|done].
  cbn [mbind completion_bind]. case_bool_decide.
  - destruct (query_loop _ _); [|done]. by intros [= <-].
  - by intros [= <-].
Qed.

Lemma createFromUrl_unescaped (u : jsstring) :
  Forall (λ c, uri_unescaped c = true) u →
  ∃ nav, createFromUrl u = Normal nav ∧ url nav = u.
Proof.
  intros Hu. rewrite createFromUrl_described. unfold described_createFromUrl.
  unfold encodeURI. rewrite Encode_unescaped by done.
  cbn [mbind completion_bind]. case_bool_decide; [|by eexists].
  rewrite decoded_pairs_unescaped; [by eexists|].
  apply split_all_Forall. unfold second_field.
  auto using before_Forall, after_Forall.
Qed.

(** ** C7 *)




(** ** C8 *)

(** C8, as stated, fails: [encodeURI] escapes the ['%'] of the escapes it
    produced itself.  ['/a b'] gives the URL ['/a%20b'], and that URL gives
    ['/a%2520b']. *)
Lemma createFromUrl_encodes_again :
  ¬ (∀ u nav, createFromUrl u = Normal nav → createFromUrl (url nav) = Normal nav)
  ∧ (url <$> createFromUrl (js "/a b")) = Normal (js "/a%20b")
  ∧ (url <$> createFromUrl (js "/a%20b")) = Normal (js "/a%2520b").
Proof.
  split_and!; [|by vm_compute..].
  intros Hall.
  destruct (createFromUrl (js "/a b")) as [nav|] eqn:Hnav; [|by vm_compute in Hnav].
  specialize (Hall _ _ Hnav). apply createFromUrl_url in Hall.
  assert (url nav = js "/a%20b") as Hurl.
  { apply createFromUrl_url in Hnav.
    assert (encodeURI (js "/a b") = Normal (js "/a%20b")) as He by (by vm_compute).
    congruence. }
  rewrite Hurl in Hall. vm_compute in Hall. discriminate.
Qed.

(** C8 (amended): [createFromUrl] is idempotent exactly on the URLs that
    [encodeURI] leaves as they are.  For a URL made only of characters of the
    unescaped set (ASCII letters, digits and [;/?:@&=+$,-_.!~*'()#]),
    [createFromUrl] succeeds, [url] is the input, and applying
    [createFromUrl] to that [url] yields the same url, path and query.  For
    any other URL on which [createFromUrl] succeeds, the second application
    does not yield the same Navigation: the ['%'] of every escape is escaped
    again. *)
Theorem createFromUrl_idempotent_iff_unescaped (u : jsstring) :
  (Forall (λ c, uri_unescaped c = true) u →
     ∃ nav, createFromUrl u = Normal nav ∧ url nav = u
            ∧ createFromUrl (url nav) = Normal nav)
  ∧ (∀ nav, createFromUrl u = Normal nav →
       createFromUrl (url nav) = Normal nav →
       Forall (λ c, uri_unescaped c = true) u).
Proof.
  split.
  - intros Hu. destruct (createFromUrl_unescaped u Hu) as (nav & Hnav & Hurl).
    exists nav. by rewrite Hurl.
  - intros nav Hnav Hagain.
    apply createFromUrl_url in Hnav, Hagain.
    apply Encode_fixed_point in Hagain.
    eapply Encode_output_unescaped; eauto using uri_unescaped_percent.
Qed.

Lemma createFromUrl_idempotent_iff_unescaped_witness :
  ∃ nav, createFromUrl (js "/a/b?x=1&y=2#top") = Normal nav
         ∧ url nav = js "/a/b?x=1&y=2#top"
         ∧ createFromUrl (url nav) = Normal nav.
Proof.
  apply (proj1 (createFromUrl_idempotent_iff_unescaped (js "/a/b?x=1&y=2#top"))).
  apply (bool_decide_unpack _). vm_compute. exact I.
Defined.

(** ** Decoding undoes the encoding *)

(** Quotient and remainder by a constant, named and bounded, for [lia]. *)
Ltac div_mod_facts x d :=
  let q := fresh "q" in let r := fresh "r" in
  pose proof (N.div_mod' x d) as ?;
  pose proof (N.mod_lt x d ltac:(lia)) as ?;
  set (q := (x / d)%N) in *; set (r := (x mod d)%N) in *;
  clearbody q r.

Lemma lor_shiftl_add (a b k : N) :
  (b < 2 ^ k)%N → N.lor (N.shiftl a k) b = (a * 2 ^ k + b)%N.
Proof.
  intros Hb. rewrite N.shiftl_mul_pow2.
  assert (N.land (a * 2 ^ k) b = 0%N) as Hdisjoint.
  { apply N.bits_inj. intros n. rewrite N.land_spec, N.bits_0.
    destruct (decide (n < k)%N) as [Hn|Hn].
    - by rewrite N.mul_pow2_bits_low.
    - destruct (decide (b = 0%N)) as [->|Hb0]; [by rewrite N.bits_0, andb_false_r|].
      rewrite (N.bits_above_log2 b n), andb_false_r; [done|].
      apply N.lt_le_trans with k; [|lia]. apply N.log2_lt_pow2; lia. }
  by rewrite <- N.lxor_lor, <- N.add_nocarry_lxor.
Qed.

Lemma in_range_spec (lo hi c : N) : in_range lo hi c = true ↔ (lo ≤ c ≤ hi)%N.
Proof. unfold in_range. rewrite andb_true_iff, !N.leb_le. done. Qed.

Lemma in_range_false (lo hi c : N) : in_range lo hi c = false ↔ (c < lo ∨ hi < c)%N.
Proof.
  unfold in_range. rewrite andb_false_iff, !N.leb_gt. done.
Qed.

Lemma scalar_spec (cp : N) :
  scalar cp = true ↔ (cp < 0xD800 ∨ 0xDFFF < cp < 0x110000)%N.
Proof.
  unfold scalar. rewrite andb_true_iff, negb_true_iff, in_range_false, N.ltb_lt. lia.
Qed.

Lemma shiftr_6 (x : N) : N.shiftr x 6 = (x / 64)%N.
Proof. apply N.shiftr_div_pow2. Qed.
Lemma shiftr_12 (x : N) : N.shiftr x 12 = (x / 4096)%N.
Proof. apply N.shiftr_div_pow2. Qed.
Lemma shiftr_18 (x : N) : N.shiftr x 18 = (x / 262144)%N.
Proof. apply N.shiftr_div_pow2. Qed.
Lemma land_3F (x : N) : N.land x 0x3F = (x mod 64)%N.
Proof. apply (N.land_ones x 6). Qed.
Lemma land_1F (x : N) : N.land x 0x1F = (x mod 32)%N.
Proof. apply (N.land_ones x 5). Qed.
Lemma land_0F (x : N) : N.land x 0x0F = (x mod 16)%N.
Proof. apply (N.land_ones x 4). Qed.
Lemma land_07 (x : N) : N.land x 0x07 = (x mod 8)%N.
Proof. apply (N.land_ones x 3). Qed.

Lemma lor_80 (y : N) : (y < 64)%N → N.lor 0x80 y = (128 + y)%N.
Proof.
  intros. change 0x80%N with (N.shiftl 2 6). by rewrite lor_shiftl_add.
Qed.
Lemma lor_C0 (x : N) : (x < 32)%N → N.lor 0xC0 x = (192 + x)%N.
Proof.
  intros. change 0xC0%N with (N.shiftl 6 5). by rewrite lor_shiftl_add.
Qed.
Lemma lor_E0 (x : N) : (x < 16)%N → N.lor 0xE0 x = (224 + x)%N.
Proof.
  intros. change 0xE0%N with (N.shiftl 14 4). by rewrite lor_shiftl_add.
Qed.
Lemma lor_F0 (x : N) : (x < 8)%N → N.lor 0xF0 x = (240 + x)%N.
Proof.
  intros. change 0xF0%N with (N.shiftl 30 3). by rewrite lor_shiftl_add.
Qed.

Lemma utf8_decode_1 (b : N) (items : list uri_item) :
  (b < 0x80)%N →
  utf8_decode (Octet b :: items) = (b ::.) <$> utf8_decode items.
Proof. intros Hb. cbn [utf8_decode]. by rewrite (proj2 (N.ltb_lt _ _) Hb). Qed.

Lemma utf8_decode_2 (b b1 : N) (items : list uri_item) :
  in_range 0xC2 0xDF b = true → is_continuation b1 = true →
  utf8_decode (Octet b :: Octet b1 :: items) =
    (utf16_units (N.lor (N.shiftl (N.land b 0x1F) 6) (N.land b1 0x3F)) ++.)
      <$> utf8_decode items.
Proof.
  intros Hb Hb1. cbn [utf8_decode]. rewrite Hb, Hb1.
  apply in_range_spec in Hb.
  by rewrite (proj2 (N.ltb_ge _ _)) by lia.
Qed.

Lemma utf8_decode_3 (b b1 b2 : N) (items : list uri_item) :
  in_range 0xE0 0xEF b = true →
  in_range (if (b =? 0xE0)%N then 0xA0 else 0x80)
           (if (b =? 0xED)%N then 0x9F else 0xBF) b1 = true →
  is_continuation b2 = true →
  utf8_decode (Octet b :: Octet b1 :: Octet b2 :: items) =
    (utf16_units
       (N.lor (N.shiftl (N.land b 0x0F) 12)
          (N.lor (N.shiftl (N.land b1 0x3F) 6) (N.land b2 0x3F))) ++.)
      <$> utf8_decode items.
Proof.
  intros Hb Hb1 Hb2. cbn [utf8_decode]. rewrite Hb, Hb1, Hb2.
  apply in_range_spec in Hb.
  rewrite (proj2 (N.ltb_ge _ _)) by lia.
  by rewrite (proj2 (in_range_false 0xC2 0xDF b)) by lia.
Qed.

Lemma utf8_decode_4 (b b1 b2 b3 : N) (items : list uri_item) :
  in_range 0xF0 0xF4 b = true →
  in_range (if (b =? 0xF0)%N then 0x90 else 0x80)
           (if (b =? 0xF4)%N then 0x8F else 0xBF) b1 = true →
  is_continuation b2 = true → is_continuation b3 = true →
  utf8_decode (Octet b :: Octet b1 :: Octet b2 :: Octet b3 :: items) =
    (utf16_units
       (N.lor (N.shiftl (N.land b 0x07) 18)
          (N.lor (N.shiftl (N.land b1 0x3F) 12)
             (N.lor (N.shiftl (N.land b2 0x3F) 6) (N.land b3 0x3F)))) ++.)
      <$> utf8_decode items.
Proof.
  intros Hb Hb1 Hb2 Hb3. cbn [utf8_decode]. rewrite Hb, Hb1, Hb2, Hb3.
  apply in_range_spec in Hb.
  rewrite (proj2 (N.ltb_ge _ _)) by lia.
  rewrite (proj2 (in_range_false 0xC2 0xDF b)) by lia.
  by rewrite (proj2 (in_range_false 0xE0 0xEF b)) by lia.
Qed.

Lemma shiftr_12' (x : N) : N.shiftr x 12 = (x / 64 / 64)%N.
Proof. change 12%N with (6 + 6)%N. by rewrite <- N.shiftr_shiftr, !shiftr_6. Qed.
Lemma shiftr_18' (x : N) : N.shiftr x 18 = (x / 64 / 64 / 64)%N.
Proof.
  change 18%N with (12 + 6)%N. by rewrite <- N.shiftr_shiftr, shiftr_12', shiftr_6.
Qed.

Lemma land_3F_80 (r : N) : (r < 64)%N → N.land (128 + r) 0x3F = r.
Proof. intros. rewrite land_3F. symmetry. apply N.mod_unique with 2%N; lia. Qed.
Lemma land_1F_C0 (q : N) : (q < 32)%N → N.land (192 + q) 0x1F = q.
Proof. intros. rewrite land_1F. symmetry. apply N.mod_unique with 6%N; lia. Qed.
Lemma land_0F_E0 (q : N) : (q < 16)%N → N.land (224 + q) 0x0F = q.
Proof. intros. rewrite land_0F. symmetry. apply N.mod_unique with 14%N; lia. Qed.
Lemma land_07_F0 (q : N) : (q < 8)%N → N.land (240 + q) 0x07 = q.
Proof. intros. rewrite land_07. symmetry. apply N.mod_unique with 30%N; lia. Qed.

Lemma join_6 (q r : N) : (r < 64)%N → N.lor (N.shiftl q 6) r = (64 * q + r)%N.
Proof. intros. rewrite lor_shiftl_add by done. lia. Qed.
Lemma join_12 (q r : N) : (r < 4096)%N → N.lor (N.shiftl q 12) r = (4096 * q + r)%N.
Proof. intros. rewrite lor_shiftl_add by done. lia. Qed.
Lemma join_18 (q r : N) : (r < 262144)%N → N.lor (N.shiftl q 18) r = (262144 * q + r)%N.
Proof. intros. rewrite lor_shiftl_add by done. lia. Qed.

(** Decoding the UTF-8 octets of a scalar value gives back its UTF-16 code
    units. *)
Lemma utf8_decode_octets (cp : N) (items : list uri_item) :
  scalar cp = true →
  utf8_decode ((Octet <$> utf8_octets cp) ++ items) =
    (utf16_units cp ++.) <$> utf8_decode items.
Proof.
  intros Hcp%scalar_spec. unfold utf8_octets.
  destruct (N.ltb_spec cp 0x80) as [H1|H1].
  { cbn [fmap list_fmap app]. rewrite utf8_decode_1 by done.
    unfold utf16_units. by rewrite (proj2 (N.ltb_lt _ _)) by lia. }
  destruct (N.ltb_spec cp 0x800) as [H2|H2].
  { rewrite shiftr_6, land_3F. div_mod_facts cp 64%N.
    rewrite lor_C0, lor_80 by lia. cbn [fmap list_fmap app].
    rewrite utf8_decode_2 by (apply in_range_spec; lia).
    rewrite land_1F_C0, land_3F_80, join_6 by lia.
    by replace (64 * q + r)%N with cp by lia. }
  destruct (N.ltb_spec cp 0x10000) as [H3|H3].
  { rewrite shiftr_12', shiftr_6, !land_3F.
    div_mod_facts cp 64%N. div_mod_facts q 64%N.
    rewrite lor_E0, !lor_80 by lia. cbn [fmap list_fmap app].
    rewrite utf8_decode_3;
      [| apply in_range_spec; lia
       | destruct (N.eqb_spec (224 + q0) 0xE0), (N.eqb_spec (224 + q0) 0xED);
           apply in_range_spec; lia
       | apply in_range_spec; lia].
    rewrite land_0F_E0, !land_3F_80, join_6, join_12 by lia.
    by replace (4096 * q0 + (64 * r0 + r))%N with cp by lia. }
  rewrite shiftr_18', shiftr_12', shiftr_6, !land_3F.
  div_mod_facts cp 64%N. div_mod_facts q 64%N. div_mod_facts q0 64%N.
  rewrite lor_F0, !lor_80 by lia. cbn [fmap list_fmap app].
  rewrite utf8_decode_4;
    [| apply in_range_spec; lia
     | destruct (N.eqb_spec (240 + q1) 0xF0), (N.eqb_spec (240 + q1) 0xF4);
         apply in_range_spec; lia
     | apply in_range_spec; lia
     | apply in_range_spec; lia].
  rewrite land_07_F0, !land_3F_80, join_6, join_12, join_18 by lia.
  by replace (262144 * q1 + (4096 * r1 + (64 * r0 + r)))%N with cp by lia.
Qed.

Lemma hex_value_digit (d : N) : (d < 16)%N → hex_value (hex_digit d) = Some d.
Proof.
  intros Hd. unfold hex_digit, hex_value, is_digit, in_range.
  change (ch "0") with 48%N. change (ch "9") with 57%N.
  change (ch "a") with 97%N. change (ch "f") with 102%N.
  change (ch "A") with 65%N. change (ch "F") with 70%N.
  destruct (N.ltb_spec d 10);
    repeat match goal with
           | |- context [(?a <=? ?b)%N] => destruct (N.leb_spec a b)
           end; cbn [andb]; try lia; f_equal; lia.
Qed.

Lemma uri_items_percent_octet (b : N) (r : jsstring) :
  (b < 256)%N →
  uri_items (percent_octet b ++ r) = (Octet b ::.) <$> uri_items r.
Proof.
  intros Hb. unfold percent_octet. cbn [app uri_items].
  rewrite N.eqb_refl.
  change 4%N with (N.of_nat 4) at 1.
  rewrite N.shiftr_div_pow2. change 0xF%N with (N.ones 4). rewrite N.land_ones.
  change (2 ^ N.of_nat 4)%N with 16%N. change (2 ^ 4)%N with 16%N.
  div_mod_facts b 16%N.
  rewrite !hex_value_digit by lia. by replace (16 * q + r0)%N with b by lia.
Qed.

Lemma utf8_octets_bytes (cp : N) :
  (cp < 0x200000)%N → Forall (λ b, (b < 256)%N) (utf8_octets cp).
Proof.
  intros Hcp. unfold utf8_octets.
  destruct (N.ltb_spec cp 0x80) as [H1|H1].
  { repeat constructor. lia. }
  destruct (N.ltb_spec cp 0x800) as [H2|H2].
  { rewrite shiftr_6, land_3F. div_mod_facts cp 64%N.
    rewrite lor_C0, lor_80 by lia. repeat constructor; lia. }
  destruct (N.ltb_spec cp 0x10000) as [H3|H3].
  { rewrite shiftr_12', shiftr_6, !land_3F.
    div_mod_facts cp 64%N. div_mod_facts q 64%N.
    rewrite lor_E0, !lor_80 by lia. repeat constructor; lia. }
  rewrite shiftr_18', shiftr_12', shiftr_6, !land_3F.
  div_mod_facts cp 64%N. div_mod_facts q 64%N. div_mod_facts q0 64%N.
  rewrite lor_F0, !lor_80 by lia. repeat constructor; lia.
Qed.

Lemma uri_items_percent_octets (octets : list N) (r : jsstring) :
  Forall (λ b, (b < 256)%N) octets →
  uri_items (mjoin (percent_octet <$> octets) ++ r) =
    ((Octet <$> octets) ++.) <$> uri_items r.
Proof.
  induction 1 as [|b octets Hb Hbs IH].
  - cbn. by destruct (uri_items r).
  - change (mjoin (percent_octet <$> b :: octets))
      with (percent_octet b ++ mjoin (percent_octet <$> octets)).
    rewrite <- app_assoc, uri_items_percent_octet, IH by done.
    by destruct (uri_items r).
Qed.

(** Decoding an escape gives back the code units that were escaped. *)
Lemma decodeURIComponent_escape (cp : N) (r : jsstring) :
  scalar cp = true →
  decodeURIComponent (percent_encode cp ++ r) =
    (utf16_units cp ++.) <$> decodeURIComponent r.
Proof.
  intros Hcp. unfold decodeURIComponent, percent_encode.
  rewrite uri_items_percent_octets.
  2:{ apply utf8_octets_bytes. apply scalar_spec in Hcp. lia. }
  destruct (uri_items r) as [items|]; [|done]. cbn.
  by apply utf8_decode_octets.
Qed.

Lemma decodeURIComponent_literal_cons (c : N) (r : jsstring) :
  c ≠ ch "%" →
  decodeURIComponent (c :: r) = (c ::.) <$> decodeURIComponent r.
Proof.
  intros Hc. unfold decodeURIComponent. cbn [uri_items].
  rewrite (proj2 (N.eqb_neq _ _) Hc).
  by destruct (uri_items r).
Qed.

Lemma uri_unescaped_ascii (c : N) : uri_unescaped c = true → (c < 128)%N.
Proof.
  intros Hc. destruct (decide (c < 128)%N) as [|Hge]; [done|]. exfalso.
  assert (Forall (λ x, (x < 128)%N) (js ";/?:@&=+$," ++ js "-_.!~*'()")) as Hall
    by (apply (bool_decide_unpack _); by vm_compute).
  rewrite Forall_app, !Forall_forall in Hall. destruct Hall as [Hr Hu].
  unfold uri_unescaped, is_alpha, is_digit in Hc.
  repeat (apply orb_true_iff in Hc as [Hc|Hc]).
  - apply in_range_spec in Hc. change (ch "z") with 122%N in Hc. lia.
  - apply in_range_spec in Hc. change (ch "Z") with 90%N in Hc. lia.
  - apply in_range_spec in Hc. change (ch "9") with 57%N in Hc. lia.
  - apply bool_decide_eq_true in Hc. apply Hr in Hc. lia.
  - apply bool_decide_eq_true in Hc. apply Hu in Hc. lia.
  - apply N.eqb_eq in Hc. subst c. by vm_compute in Hge.
Qed.

Lemma surrogate_pair_units (hi lo : N) :
  is_high_surrogate hi = true → is_low_surrogate lo = true →
  scalar (surrogate_pair_code_point hi lo) = true
  ∧ utf16_units (surrogate_pair_code_point hi lo) = [hi; lo].
Proof.
  intros Hhi%in_range_spec Hlo%in_range_spec.
  unfold surrogate_pair_code_point. split.
  - apply scalar_spec. lia.
  - unfold utf16_units. rewrite (proj2 (N.ltb_ge _ _)) by lia.
    replace ((hi - 0xD800) * 0x400 + (lo - 0xDC00) + 0x10000 - 0x10000)%N
      with (1024 * (hi - 0xD800) + (lo - 0xDC00))%N by lia.
    change 10%N with (N.of_nat 10) at 1. rewrite N.shiftr_div_pow2.
    change 0x3FF%N with (N.ones 10). rewrite N.land_ones.
    change (2 ^ N.of_nat 10)%N with 1024%N. change (2 ^ 10)%N with 1024%N.
    div_mod_facts (1024 * (hi - 0xD800) + (lo - 0xDC00))%N 1024%N.
    f_equal; [lia|]. f_equal. lia.
Qed.

(** What [encodeURI] returns is related to its argument piece by piece. *)
Lemma encodeURI_encodes (s e : jsstring) :
  wf_jsstring s → encodeURI s = Normal e → encodes s e.
Proof.
  unfold encodeURI. remember (length s) as n eqn:Hn. revert s e Hn.
  induction n as [n IH] using lt_wf_ind. intros [|c s] e -> Hwf He.
  { injection He as <-. constructor. }
  apply Forall_cons in Hwf as [Hc Hwf]. cbn [Encode] in He.
  destruct (uri_unescaped c) eqn:Hesc.
  { destruct (Encode uri_unescaped s) as [e'|] eqn:Hs; [|done].
    injection He as <-. constructor; [done|].
    eapply (IH (length s)); [simpl; lia | done | done | done]. }
  destruct (is_low_surrogate c) eqn:Hlow; [done|].
  destruct (is_high_surrogate c) eqn:Hhigh.
  - destruct s as [|d s]; [done|].
    apply Forall_cons in Hwf as [Hd Hwf].
    destruct (is_low_surrogate d) eqn:Hdlow; [|done].
    destruct (Encode uri_unescaped s) as [e'|] eqn:Hs; [|done].
    injection He as <-.
    destruct (surrogate_pair_units c d Hhigh Hdlow) as [Hscalar Hunits].
    change (c :: d :: s) with ([c; d] ++ s). rewrite <- Hunits.
    constructor; [done | |].
    + rewrite Hunits. repeat constructor; [done|].
      destruct (uri_unescaped d) eqn:Hdesc; [|done].
      apply uri_unescaped_ascii in Hdesc. apply in_range_spec in Hdlow. lia.
    + eapply (IH (length s)); [simpl; lia | done | done | done].
  - destruct (Encode uri_unescaped s) as [e'|] eqn:Hs; [|done].
    injection He as <-.
    apply in_range_false in Hlow, Hhigh.
    assert (utf16_units c = [c]) as Hunits.
    { unfold utf16_units. by rewrite (proj2 (N.ltb_lt _ _)) by lia. }
    change (c :: s) with ([c] ++ s). rewrite <- Hunits.
    constructor.
    + apply scalar_spec. lia.
    + rewrite Hunits. by repeat constructor.
    + eapply (IH (length s)); [simpl; lia | done | done | done].
Qed.

(** Decoding undoes the encoding. *)
Lemma encodes_decode (s e : jsstring) :
  encodes s e → decodeURIComponent e = Normal s.
Proof.
  induction 1 as [|c s e Hc _ IH|cp s e Hcp _ _ IH]; [done| |].
  - rewrite decodeURIComponent_literal_cons, IH; [done|].
    intros ->. by rewrite uri_unescaped_percent in Hc.
  - by rewrite decodeURIComponent_escape, IH.
Qed.

Section Separators.
Variable sep : N.
Hypothesis sep_unescaped : uri_unescaped sep = true.
Hypothesis sep_not_hex : hex_value sep = None.

Lemma sep_not_escaped_units (cp : N) :
  Forall (λ c, uri_unescaped c = false) (utf16_units cp) → sep ∉ utf16_units cp.
Proof.
  intros Hall Hin. rewrite Forall_forall in Hall. apply Hall in Hin. congruence.
Qed.

Lemma sep_not_in_escape (cp : N) : scalar cp = true → sep ∉ percent_encode cp.
Proof.
  intros Hcp%scalar_spec Hin. unfold percent_encode in Hin.
  apply list_elem_of_join in Hin as (piece & Hin & Hpiece).
  apply list_elem_of_fmap in Hpiece as (b & -> & Hb).
  pose proof (utf8_octets_bytes cp ltac:(lia)) as Hbytes.
  rewrite Forall_forall in Hbytes. apply Hbytes in Hb.
  unfold percent_octet in Hin.
  change 4%N with (N.of_nat 4) in Hin at 1.
  rewrite N.shiftr_div_pow2 in Hin. change 0xF%N with (N.ones 4) in Hin.
  rewrite N.land_ones in Hin.
  change (2 ^ N.of_nat 4)%N with 16%N in Hin. change (2 ^ 4)%N with 16%N in Hin.
  div_mod_facts b 16%N.
  repeat (apply elem_of_cons in Hin as [->|Hin]).
  - by rewrite uri_unescaped_percent in sep_unescaped.
  - rewrite hex_value_digit in sep_not_hex by lia. done.
  - rewrite hex_value_digit in sep_not_hex by lia. done.
  - by apply elem_of_nil in Hin.
Qed.

Lemma before_app_no_sep (x s : jsstring) :
  sep ∉ x → before sep (x ++ s) = x ++ before sep s.
Proof.
  induction x as [|c x IH]; [done|]. intros [Hc Hx]%not_elem_of_cons.
  cbn. rewrite (proj2 (N.eqb_neq c sep)) by done. by rewrite IH.
Qed.

Lemma after_app_no_sep (x s : jsstring) :
  sep ∉ x → after sep (x ++ s) = after sep s.
Proof.
  induction x as [|c x IH]; [done|]. intros [Hc Hx]%not_elem_of_cons.
  cbn. rewrite (proj2 (N.eqb_neq c sep)) by done. by rewrite IH.
Qed.

Lemma split_all_app_no_sep (x s : jsstring) :
  sep ∉ x →
  split_all sep (x ++ s) =
    (x ++ before sep s) ::
      (if bool_decide (sep ∈ s) then split_all sep (after sep s) else []).
Proof.
  intros Hx. rewrite split_all_unfold, before_app_no_sep, after_app_no_sep by done.
  f_equal. destruct (decide (sep ∈ s)).
  - rewrite !bool_decide_eq_true_2; [done..|]. apply elem_of_app. auto.
  - rewrite !bool_decide_eq_false_2; [done..|].
    intros [?|?]%elem_of_app; done.
Qed.

Lemma encodes_elem_of (s e : jsstring) : encodes s e → sep ∈ s ↔ sep ∈ e.
Proof.
  induction 1 as [|c s e Hc _ IH|cp s e Hcp Hunits _ IH]; [done| |].
  - by rewrite !elem_of_cons, IH.
  - rewrite !elem_of_app, IH.
    pose proof (sep_not_escaped_units cp Hunits).
    pose proof (sep_not_in_escape cp Hcp). tauto.
Qed.

Lemma encodes_before (s e : jsstring) :
  encodes s e → encodes (before sep s) (before sep e).
Proof.
  induction 1 as [|c s e Hc _ IH|cp s e Hcp Hunits _ IH]; [constructor| |].
  - cbn. destruct (c =? sep)%N; by constructor.
  - rewrite !before_app_no_sep
      by auto using sep_not_escaped_units, sep_not_in_escape.
    by constructor.
Qed.

Lemma encodes_after (s e : jsstring) :
  encodes s e → encodes (after sep s) (after sep e).
Proof.
  induction 1 as [|c s e Hc Hse IH|cp s e Hcp Hunits _ IH]; [constructor| |].
  - cbn. by destruct (c =? sep)%N.
  - by rewrite !after_app_no_sep
      by auto using sep_not_escaped_units, sep_not_in_escape.
Qed.

Lemma encodes_split_all (s e : jsstring) :
  encodes s e → Forall2 encodes (split_all sep s) (split_all sep e).
Proof.
  remember (length s) as n eqn:Hn. revert s e Hn.
  induction n as [n IH] using lt_wf_ind. intros s e -> Hse.
  rewrite (split_all_unfold sep s), (split_all_unfold sep e).
  constructor; [by apply encodes_before|].
  rewrite <- (bool_decide_ext _ _ (encodes_elem_of s e Hse)).
  case_bool_decide as Hin; [|constructor].
  eapply (IH (length (after sep s))); [|done|by apply encodes_after].
  rewrite (before_after sep s Hin) at 2. rewrite length_app. simpl. lia.
Qed.
End Separators.

Lemma decoded_pairs_encodes (raw encoded : list jsstring) :
  Forall2 encodes raw encoded →
  decoded_pairs second_field encoded = Normal (raw_pair <$> raw).
Proof.
  induction 1 as [|p q ps qs Hpq _ IH]; [done|]. cbn [decoded_pairs].
  rewrite (encodes_decode (before (ch "=") p) (before (ch "=") q))
    by (by apply encodes_before).
  rewrite (encodes_decode (second_field (ch "=") p) (second_field (ch "=") q))
    by (by apply encodes_before, encodes_after).
  by rewrite IH.
Qed.

(** Whenever [encodeURI] accepts the URL, [createFromUrl] returns: the
    decoding of keys and values cannot fail, and it gives back the text of
    the URL as it was passed in.  Escapes written by the caller are
    therefore not decoded: they are escaped once more, then decoded once. *)
Theorem createFromUrl_raw (u e : jsstring) :
  wf_jsstring u → encodeURI u = Normal e →
  createFromUrl u =
    Normal (if bool_decide (ch "?" ∈ u)
            then Navigation_new e (before (ch "?") e)
                   (query_of_pairs
                      (raw_pair <$> split_all (ch "&") (second_field (ch "?") u)))
            else Navigation_new e e ∅).
Proof.
  intros Hwf He. pose proof (encodeURI_encodes u e Hwf He) as Hue.
  rewrite createFromUrl_described. unfold described_createFromUrl.
  rewrite He. cbn [mbind completion_bind].
  rewrite <- (bool_decide_ext _ _ (encodes_elem_of (ch "?") eq_refl eq_refl u e Hue)).
  case_bool_decide; [|done].
  rewrite (decoded_pairs_encodes
             (split_all (ch "&") (second_field (ch "?") u))); [done|].
  apply encodes_split_all; [done..|].
  by apply encodes_before, encodes_after.
Qed.

(** For instance the escape ['%41'] of the caller stays as it is, and a
    space comes back as a space. *)
Lemma createFromUrl_raw_example :
  ∃ nav, createFromUrl (js "/p q?a=%41&b=x y") = Normal nav
    ∧ url nav = js "/p%20q?a=%2541&b=x%20y"
    ∧ path nav = js "/p%20q"
    ∧ query nav = {[ js "a" := js "%41"; js "b" := js "x y" ]}.
Proof. eexists. split; [by vm_compute|]. by vm_compute. Qed.

(** ** Running handlers in a store *)

Section Store_steps.
Context {A B : Type}.
Implicit Types (σ : Store) (f : A → M B).

Lemma bind_run (c : M A) f σ :
  (c ≫= f) σ = match c σ with Some (x, σ') => f x σ' | None => None end.
Proof. reflexivity. Qed.

Lemma bind_ret (x : A) f σ : (mret x ≫= f) σ = f x σ.
Proof. reflexivity. Qed.

Lemma bind_bind {C} (c : M C) (g : C → M A) f σ :
  ((c ≫= g) ≫= f) σ = (c ≫= λ x, g x ≫= f) σ.
Proof. unfold mbind, M_bind. by destruct (c σ) as [[x σ']|]. Qed.
End Store_steps.

Lemma bind_readArray {B : Type} (r : nat) (f : list jsstring → M B) σ segments :
  arrays σ !! r = Some segments → (readArray r ≫= f) σ = f segments σ.
Proof. intros Hr. rewrite bind_run. unfold readArray. by rewrite Hr. Qed.

Lemma bind_readObject {B : Type} (r : nat) (f : object → M B) σ props :
  objects σ !! r = Some props → (readObject r ≫= f) σ = f props σ.
Proof. intros Hr. rewrite bind_run. unfold readObject. by rewrite Hr. Qed.

Lemma bind_newArray {B : Type} (items : list jsstring) (f : nat → M B) σ :
  (newArray items ≫= f) σ = f (length (arrays σ)) (with_array items σ).
Proof. reflexivity. Qed.

Lemma bind_newObject {B : Type} (props : object) (f : nat → M B) σ :
  (newObject props ≫= f) σ = f (length (objects σ)) (with_object props σ).
Proof. reflexivity. Qed.

(** *** Stores only grow *)

Lemma extends_refl (σ : Store) : extends σ σ.
Proof. by split_and!. Qed.

Lemma extends_trans (σ1 σ2 σ3 : Store) :
  extends σ1 σ2 → extends σ2 σ3 → extends σ1 σ3.
Proof. intros (?&?&?) (?&?&?). split_and!; by etrans. Qed.

Lemma extends_with_array items σ : extends σ (with_array items σ).
Proof. split_and!; simpl; [done | by apply prefix_app_r | done]. Qed.

Lemma extends_with_object props σ : extends σ (with_object props σ).
Proof. split_and!; simpl; [by apply prefix_app_r | done | done]. Qed.

Lemma extends_with_call c σ : extends σ (with_call c σ).
Proof. split_and!; simpl; [done | done | by apply prefix_app_r]. Qed.

Lemma extends_objects σ σ' r props :
  extends σ σ' → objects σ !! r = Some props → objects σ' !! r = Some props.
Proof. intros (?&_) Hr. by eapply prefix_lookup_Some. Qed.

Lemma extends_arrays σ σ' r items :
  extends σ σ' → arrays σ !! r = Some items → arrays σ' !! r = Some items.
Proof. intros (_&?&_) Hr. by eapply prefix_lookup_Some. Qed.

Lemma with_array_lookup_new items σ :
  arrays (with_array items σ) !! length (arrays σ) = Some items.
Proof. simpl. by rewrite lookup_app_r, Nat.sub_diag. Qed.

Lemma with_object_lookup_new props σ :
  objects (with_object props σ) !! length (objects σ) = Some props.
Proof. simpl. by rewrite lookup_app_r, Nat.sub_diag. Qed.

Lemma outcome_ok_step σ σ1 handled σ' :
  extends σ σ1 → calls σ1 = calls σ →
  outcome_ok σ1 handled σ' → outcome_ok σ handled σ'.
Proof.
  intros Hext Hcalls [Hext' Hc]. split; [by eapply extends_trans|].
  by rewrite <- Hcalls.
Qed.

Lemma first_handled_defined (attempts : list (M bool)) σ :
  Forall (λ attempt : M bool, ∀ σ1, extends σ σ1 →
            ∃ handled σ', attempt σ1 = Some (handled, σ')
                          ∧ outcome_ok σ1 handled σ') attempts →
  ∃ handled σ', first_handled attempts σ = Some (handled, σ')
                ∧ outcome_ok σ handled σ'.
Proof.
  intros Hall. revert σ Hall.
  induction attempts as [|attempt rest IH]; intros σ Hall.
  { exists false, σ. by repeat split. }
  apply Forall_cons in Hall as [Hattempt Hrest].
  destruct (Hattempt σ) as (handled & σ1 & Hrun & Hok); [done|].
  cbn [first_handled]. rewrite bind_run, Hrun.
  destruct handled; [by exists true, σ1|].
  destruct Hok as [Hext Hcalls].
  destruct (IH σ1) as (handled & σ' & Hrun' & Hok').
  { eapply Forall_impl; [exact Hrest|]. intros a Ha σ2 Hσ2.
    apply Ha. by eapply extends_trans. }
  exists handled, σ'. split; [done|]. by eapply outcome_ok_step.
Qed.

(** With live references, [route] returns, leaves every existing cell as it
    was, invokes no callback when it answers [false] and exactly one when it
    answers [true]. *)
Lemma route_defined (h : Handler) (nav params subpath : nat) σ :
  is_Some (objects σ !! params) → is_Some (arrays σ !! subpath) →
  ∃ handled σ', route h nav params subpath σ = Some (handled, σ')
                ∧ outcome_ok σ handled σ'.
Proof.
  revert params subpath σ.
  induction h as [pathComponents next IH | key validator next IH
                 | key validator next IH | handlers IH | callback options]
    using Handler_tree_ind; intros params subpath σ [props Hp] [segments Hs].
  - cbn [route]. rewrite (bind_readArray _ _ _ _ Hs).
    case_bool_decide; [by exists false, σ|].
    destruct (components_match _ _); [|by exists false, σ]. cbn [negb].
    rewrite bind_newArray.
    destruct (IH params (length (arrays σ)) (with_array (drop (length pathComponents) segments) σ))
      as (handled & σ' & Hrun & Hok).
    { exists props. by eapply extends_objects; [apply extends_with_array|]. }
    { eexists. apply with_array_lookup_new. }
    exists handled, σ'. split; [done|].
    eapply outcome_ok_step; [apply extends_with_array | done | done].
  - cbn [route]. unfold BaseParamHandler_route, ParamHandler_validate.
    rewrite (bind_readArray _ _ _ _ Hs).
    case_bool_decide; [by exists false, σ|].
    rewrite bind_bind, (bind_readArray _ _ _ _ Hs), bind_bind, bind_newArray, bind_ret.
    destruct (validate _ _) as [v|].
    2:{ eexists false, _. split; [done|]. split; [apply extends_with_array | done]. }
    erewrite bind_readObject; [|by eapply extends_objects; [apply extends_with_array|]].
    rewrite bind_newObject.
    edestruct IH as (handled & σ' & Hrun & Hok); [| |rewrite Hrun].
    { eexists. apply with_object_lookup_new. }
    { eexists. eapply extends_arrays; [apply extends_with_object|].
      apply with_array_lookup_new. }
    exists handled, σ'. split; [done|].
    eapply outcome_ok_step; [| |exact Hok]; [|done].
    eapply extends_trans; [apply extends_with_array | apply extends_with_object].
  - cbn [route]. unfold BaseParamHandler_route, MultiParamHandler_validate.
    rewrite (bind_readArray _ _ _ _ Hs).
    case_bool_decide; [by exists false, σ|].
    rewrite bind_bind, (bind_readArray _ _ _ _ Hs), bind_bind, bind_newArray, bind_ret.
    destruct (validate _ _) as [v|].
    2:{ eexists false, _. split; [done|]. split; [apply extends_with_array | done]. }
    erewrite bind_readObject; [|by eapply extends_objects; [apply extends_with_array|]].
    rewrite bind_newObject.
    edestruct IH as (handled & σ' & Hrun & Hok); [| |rewrite Hrun].
    { eexists. apply with_object_lookup_new. }
    { eexists. eapply extends_arrays; [apply extends_with_object|].
      apply with_array_lookup_new. }
    exists handled, σ'. split; [done|].
    eapply outcome_ok_step; [| |exact Hok]; [|done].
    eapply extends_trans; [apply extends_with_array | apply extends_with_object].
  - cbn [route]. apply first_handled_defined.
    apply Forall_fmap. eapply Forall_impl; [exact IH|].
    intros h Hh σ1 Hσ1. apply Hh.
    + exists props. by eapply extends_objects.
    + exists segments. by eapply extends_arrays.
  - cbn [route]. rewrite (bind_readArray _ _ _ _ Hs).
    destruct (_ && _); [by exists false, σ|].
    unfold invoke. rewrite bind_bind, (bind_readObject _ _ _ _ Hp).
    eexists true, _. split; [reflexivity|].
    split; [apply extends_with_call | by eexists].
Qed.


(** ** Validators with one field *)

Lemma conformsTo_singleton (key : jsstring) (f : value → ValidationResult value)
    (x : value) :
  conformsTo {[ key := f ]} {[ key := x ]} =
    match f x with
    | Success y => Success {[ key := y ]}
    | Failure => Failure
    end.
Proof.
  unfold conformsTo.
  rewrite <- (insert_empty (M:=gmap jsstring) key f).
  rewrite map_imap_insert, map_imap_empty, insert_empty.
  rewrite lookup_singleton_eq.
  change (default VUndefined (Some x)) with x.
  destruct (f x) as [y|] eqn:Hfx.
  - rewrite bool_decide_eq_true_2 by (by apply map_Forall_singleton).
    by rewrite omap_singleton.
  - rewrite bool_decide_eq_false_2; [done|].
    by intros ?%map_Forall_singleton.
Qed.

Lemma each_item_isString (segments : list jsstring) :
  each_item isString (VString <$> segments) = Success segments.
Proof. induction segments as [|x xs IH]; [done|]. cbn. by rewrite IH. Qed.

Lemma keysOf_length {A} (m : gmap jsstring A) : length (keysOf m) = size m.
Proof. unfold keysOf. by rewrite length_fmap, length_map_to_list. Qed.

Lemma size_1_singleton {A} (m : gmap jsstring A) :
  size m = 1 → ∃ key x, m = {[ key := x ]}.
Proof.
  rewrite <- length_map_to_list. intros Hlen.
  destruct (map_to_list m) as [|[key x] [|??]] eqn:Hm; try done.
  exists key, x. rewrite <- (list_to_map_to_list m), Hm.
  simpl. by rewrite insert_empty.
Qed.

Lemma BaseParamHandler_new_singleton {A} (key : jsstring) (x : A) :
  BaseParamHandler_new ({[ key := x ]} : gmap jsstring A) = Normal key.
Proof.
  unfold BaseParamHandler_new, keysOf. by rewrite map_to_list_singleton.
Qed.

Lemma BaseParamHandler_new_throws {A} (m : gmap jsstring A) :
  size m ≠ 1 →
  BaseParamHandler_new m =
    Throw (Error (js "Expected one validator, got " ++ decimal (size m))).
Proof.
  intros Hsize. unfold BaseParamHandler_new.
  rewrite <- keysOf_length in *.
  by destruct (keysOf m) as [|? [|??]].
Qed.

(** ** The two parameter matchers, case by case *)

Lemma ParamHandler_route (key : jsstring) (f : value → ValidationResult value)
    (next : Handler) (nav params subpath : nat) σ props segments :
  objects σ !! params = Some props →
  arrays σ !! subpath = Some segments →
  route (ParamHandler key {[ key := f ]} next) nav params subpath σ =
    match segments with
    | [] => Some (false, σ)
    | segment :: rest =>
        match f (VString segment) with
        | Failure => Some (false, with_array rest σ)
        | Success x =>
            route next nav (length (objects σ)) (length (arrays σ))
                  (with_object (<[key := x]> props) (with_array rest σ))
        end
    end.
Proof.
  intros Hp Hs. cbn [route]. unfold BaseParamHandler_route, ParamHandler_validate.
  rewrite (bind_readArray _ _ _ _ Hs).
  destruct segments as [|segment rest]; [done|].
  rewrite bool_decide_eq_false_2 by done.
  rewrite bind_bind, (bind_readArray _ _ _ _ Hs), bind_bind, bind_newArray, bind_ret.
  unfold validate. cbn [lookup list_lookup from_option drop].
  rewrite conformsTo_singleton.
  destruct (f (VString segment)) as [x|]; [|done].
  erewrite bind_readObject by exact Hp. rewrite bind_newObject.
  by rewrite <- insert_union_singleton_l.
Qed.

Lemma MultiParamHandler_route (key : jsstring)
    (g : list jsstring → ValidationResult value)
    (next : Handler) (nav params subpath : nat) σ props segments :
  objects σ !! params = Some props →
  arrays σ !! subpath = Some segments →
  route (MultiParamHandler key {[ key := isArray (eachItem isString g) ]} next)
        nav params subpath σ =
    match segments with
    | [] => Some (false, σ)
    | _ :: _ =>
        match g segments with
        | Failure => Some (false, with_array [] σ)
        | Success x =>
            route next nav (length (objects σ)) (length (arrays σ))
                  (with_object (<[key := x]> props) (with_array [] σ))
        end
    end.
Proof.
  intros Hp Hs. cbn [route]. unfold BaseParamHandler_route, MultiParamHandler_validate.
  rewrite (bind_readArray _ _ _ _ Hs).
  destruct segments as [|segment rest]; [done|].
  rewrite bool_decide_eq_false_2 by done.
  rewrite bind_bind, (bind_readArray _ _ _ _ Hs), bind_bind, bind_newArray, bind_ret.
  unfold validate. rewrite conformsTo_singleton.
  unfold isArray, eachItem. rewrite each_item_isString.
  destruct (g (segment :: rest)) as [x|]; [|done].
  erewrite bind_readObject by exact Hp. rewrite bind_newObject.
  by rewrite <- insert_union_singleton_l.
Qed.

(** ** C5 *)

(** C5: a single-parameter matcher built by [param] from a validator with the
    one field [key] fails when no segment remains; otherwise it runs the
    assertion of [key] on the next segment's raw string; when the assertion
    fails the matcher fails; when it succeeds with [x] the continuation runs
    on the segments after the first and on a new object, the accumulator
    with [key] bound to [x].  For
    [path("users").param(idValidator).register(cb)], [navigate('/users/42')]
    invokes [cb] with [{id: 42}] and resolves to [true];
    [navigate('/users/abc')] resolves to [false] and [cb] is not invoked. *)
Theorem single_param_matcher (key : jsstring)
    (f : value → ValidationResult value) (next : Handler)
    (nav params subpath : nat) (σ : Store) (props : object)
    (segments : list jsstring) (cb : nat) :
  objects σ !! params = Some props →
  arrays σ !! subpath = Some segments →
  ParamHandler_new {[ key := f ]} next
    = Normal (ParamHandler key {[ key := f ]} next)
  ∧ route (ParamHandler key {[ key := f ]} next) nav params subpath σ =
      match segments with
      | [] => Some (false, σ)
      | segment :: rest =>
          match f (VString segment) with
          | Failure => Some (false, with_array rest σ)
          | Success x =>
              route next nav (length (objects σ)) (length (arrays σ))
                    (with_object (<[key := x]> props) (with_array rest σ))
          end
      end
  ∧ ∃ hs, users_router cb = Normal hs
      ∧ (∃ m, run [Navigate (Url (js "/users/42")); WalkCompletes 0] (boot hs)
                = Some m
              ∧ tasks m = [Resolved true]
              ∧ (λ c, (call_callback c, call_params c))
                  <$> calls (store (router m))
                = [(cb, {[ js "id" := VNumber 42 ]})])
      ∧ (∃ m, run [Navigate (Url (js "/users/abc")); WalkCompletes 0] (boot hs)
                = Some m
              ∧ tasks m = [Resolved false]
              ∧ calls (store (router m)) = []).
Proof.
  intros Hp Hs. split_and!.
  - unfold ParamHandler_new. by rewrite BaseParamHandler_new_singleton.
  - by apply ParamHandler_route.
  - eexists. split; [by vm_compute|].
    split; eexists; (split; [by vm_compute|]); by vm_compute.
Qed.

Lemma single_param_matcher_witness :
  route (ParamHandler (js "id") idValidator (Subrouter [])) 0 0 0
        (mkStore [∅] [[js "42"; js "x"]] [])
  = Some (false, mkStore [∅; {[ js "id" := VNumber 42 ]}]
                         [[js "42"; js "x"]; [js "x"]] []).
Proof.
  pose proof (single_param_matcher (js "id") numeric (Subrouter []) 0 0 0
                (mkStore [∅] [[js "42"; js "x"]] []) ∅ [js "42"; js "x"] 0
                eq_refl eq_refl) as (_ & Hroute & _).
  exact Hroute.
Defined.

(** ** C6 *)

(** C6: a multi-parameter matcher built by [multiparam] from an array
    validator with the one field [key] fails when no segment remains;
    otherwise its validator checks that the candidate is an array of strings
    (which the segments always are) and runs the array assertion once on the
    whole list of remaining segments; when that fails the matcher fails; when
    it succeeds with [x] the continuation runs on a new empty segment list
    and on a new object, the accumulator with [key] bound to [x].  For
    [path("files").multiparam(segmentsValidator).register(cb)],
    [navigate('/files/a/b/c')] invokes [cb] with the parameter bound to
    [["a","b","c"]]; [navigate('/files')] does not match. *)
Theorem multi_param_matcher (key : jsstring)
    (g : list jsstring → ValidationResult value) (next : Handler)
    (nav params subpath : nat) (σ : Store) (props : object)
    (segments : list jsstring) (cb : nat) :
  objects σ !! params = Some props →
  arrays σ !! subpath = Some segments →
  MultiParamHandler_new {[ key := g ]} next
    = Normal (MultiParamHandler key
                {[ key := isArray (eachItem isString g) ]} next)
  ∧ route (MultiParamHandler key {[ key := isArray (eachItem isString g) ]} next)
          nav params subpath σ =
      match segments with
      | [] => Some (false, σ)
      | _ :: _ =>
          match g segments with
          | Failure => Some (false, with_array [] σ)
          | Success x =>
              route next nav (length (objects σ)) (length (arrays σ))
                    (with_object (<[key := x]> props) (with_array [] σ))
          end
      end
  ∧ ∃ hs, files_router cb = Normal hs
      ∧ (∃ m, run [Navigate (Url (js "/files/a/b/c")); WalkCompletes 0] (boot hs)
                = Some m
              ∧ tasks m = [Resolved true]
              ∧ (λ c, (call_callback c, call_params c))
                  <$> calls (store (router m))
                = [(cb, {[ js "segments" :=
                             VArray [VString (js "a"); VString (js "b");
                                     VString (js "c")] ]})])
      ∧ (∃ m, run [Navigate (Url (js "/files")); WalkCompletes 0] (boot hs)
                = Some m
              ∧ tasks m = [Resolved false]
              ∧ calls (store (router m)) = []).
Proof.
  intros Hp Hs. split_and!.
  - unfold MultiParamHandler_new. rewrite BaseParamHandler_new_singleton.
    cbn [mbind completion_bind]. by rewrite lookup_singleton_eq.
  - by apply MultiParamHandler_route.
  - eexists. split; [by vm_compute|].
    split; eexists; (split; [by vm_compute|]); by vm_compute.
Qed.

Lemma multi_param_matcher_witness :
  route (MultiParamHandler (js "segments")
           {[ js "segments" :=
                isArray (eachItem isString
                           (λ segments, Success (VArray (VString <$> segments)))) ]}
           (Subrouter [CallbackHandler 0 (mkOptions false)]))
        0 0 0 (mkStore [∅] [[js "a"; js "b"]] [])
  = Some (true,
          mkStore [∅; {[ js "segments" := VArray [VString (js "a"); VString (js "b")] ]}]
                  [[js "a"; js "b"]; []]
                  [mkCall 0 0 1
                     {[ js "segments" := VArray [VString (js "a"); VString (js "b")] ]}]).
Proof.
  pose proof (multi_param_matcher (js "segments")
                (λ segments, Success (VArray (VString <$> segments)))
                (Subrouter [CallbackHandler 0 (mkOptions false)]) 0 0 0
                (mkStore [∅] [[js "a"; js "b"]] []) ∅ [js "a"; js "b"] 0
                eq_refl eq_refl) as (_ & Hroute & _).
  exact Hroute.
Defined.

(** ** C9 *)

(** C9: [param] and [multiparam] construct their matcher before pushing it.
    With a validator that has no field, or more than one, the constructor
    throws [Error("Expected one validator, got n")] and the router is left
    without the entry; with exactly one field the matcher is constructed,
    its key being that field, and pushed after the entries already there. *)
Theorem param_matcher_construction (validator : Validator)
    (arrayValidator : ArrayValidator) (sub handlers : list Handler) :
  (size validator ≠ 1 →
     let e := Error (js "Expected one validator, got " ++ decimal (size validator)) in
     ParamHandler_new validator (Subrouter sub) = Throw e
     ∧ BaseRouter_param validator sub handlers = Throw e)
  ∧ (size validator = 1 →
     ∃ key f, validator = {[ key := f ]}
       ∧ ParamHandler_new validator (Subrouter sub)
           = Normal (ParamHandler key validator (Subrouter sub))
       ∧ BaseRouter_param validator sub handlers
           = Normal (handlers ++ [ParamHandler key validator (Subrouter sub)]))
  ∧ (size arrayValidator ≠ 1 →
     let e := Error (js "Expected one validator, got " ++ decimal (size arrayValidator)) in
     MultiParamHandler_new arrayValidator (Subrouter sub) = Throw e
     ∧ BaseRouter_multiparam arrayValidator sub handlers = Throw e)
  ∧ (size arrayValidator = 1 →
     ∃ key g, arrayValidator = {[ key := g ]}
       ∧ ∃ h, MultiParamHandler_new arrayValidator (Subrouter sub) = Normal h
         ∧ h = MultiParamHandler key {[ key := isArray (eachItem isString g) ]}
                 (Subrouter sub)
         ∧ BaseRouter_multiparam arrayValidator sub handlers
             = Normal (handlers ++ [h])).
Proof.
  split_and!.
  - intros Hsize e. unfold BaseRouter_param, ParamHandler_new.
    by rewrite BaseParamHandler_new_throws.
  - intros (key & f & ->)%size_1_singleton. exists key, f.
    unfold BaseRouter_param, ParamHandler_new.
    by rewrite BaseParamHandler_new_singleton.
  - intros Hsize e. unfold BaseRouter_multiparam, MultiParamHandler_new.
    by rewrite BaseParamHandler_new_throws.
  - intros (key & g & ->)%size_1_singleton. exists key, g.
    split; [done|]. eexists.
    unfold BaseRouter_multiparam, MultiParamHandler_new.
    rewrite BaseParamHandler_new_singleton. cbn [mbind completion_bind].
    by rewrite lookup_singleton_eq.
Qed.

Lemma param_matcher_construction_witness :
  BaseRouter_param ∅ [] [] = Throw (Error (js "Expected one validator, got 0"))
  ∧ BaseRouter_param {[ js "a" := numeric; js "b" := numeric ]} [] []
      = Throw (Error (js "Expected one validator, got 2"))
  ∧ BaseRouter_param idValidator [] []
      = Normal [ParamHandler (js "id") idValidator (Subrouter [])]
  ∧ BaseRouter_multiparam ∅ [] [] = Throw (Error (js "Expected one validator, got 0"))
  ∧ ∃ h, BaseRouter_multiparam segmentsValidator [] [] = Normal [h].
Proof.
  split_and!.
  - refine (proj2 (proj1 (param_matcher_construction ∅ ∅ [] []) _)). by vm_compute.
  - refine (proj2 (proj1 (param_matcher_construction
                            {[ js "a" := numeric; js "b" := numeric ]} ∅ [] []) _)).
    by vm_compute.
  - destruct (proj1 (proj2 (param_matcher_construction idValidator ∅ [] [])))
      as (key & f & Hv & _ & Hpush); [by vm_compute|].
    rewrite Hpush. do 2 f_equal.
    apply (f_equal (λ m : Validator, (map_to_list m).*1)) in Hv.
    unfold idValidator in Hv at 1. rewrite !map_to_list_singleton in Hv.
    injection Hv as <-. done.
  - refine (proj2 (proj1 (proj2 (proj2 (param_matcher_construction ∅ ∅ [] []))) _)).
    by vm_compute.
  - destruct (proj2 (proj2 (proj2 (param_matcher_construction ∅ segmentsValidator [] []))))
      as (key & g & _ & h & _ & _ & Hpush); [by vm_compute|].
    by exists h.
Defined.

(** ** Literal paths and terminal callbacks *)

Lemma split_all_nonempty (sep : N) (s : jsstring) : split_all sep s ≠ [].
Proof. by rewrite split_all_unfold. Qed.

Lemma split_all_app (sep : N) (x y : jsstring) :
  split_all sep (x ++ sep :: y) = split_all sep x ++ split_all sep y.
Proof.
  induction x as [|c x IH]; simpl.
  - by rewrite N.eqb_refl.
  - destruct (c =? sep)%N; [by rewrite IH|].
    rewrite IH. pose proof (split_all_nonempty sep x).
    by destruct (split_all sep x).
Qed.

Lemma path_components_app (x y : jsstring) :
  path_components (x ++ ch "/" :: y) = path_components x ++ path_components y.
Proof.
  unfold path_components, split. by rewrite split_all_app, filter_app.
Qed.

Lemma path_components_trailing_slash (p : jsstring) :
  path_components (p ++ js "/") = path_components p.
Proof.
  change (js "/") with (ch "/" :: []). rewrite path_components_app.
  apply app_nil_r.
Qed.

Lemma components_match_prefix (pathComponents subpath : list jsstring) :
  ¬ length subpath < length pathComponents
  ∧ components_match pathComponents subpath = true
  ↔ ∃ rest, subpath = pathComponents ++ rest.
Proof.
  unfold components_match. rewrite forallb_forall. split.
  - intros [Hlen Hall]. exists (drop (length pathComponents) subpath).
    rewrite <- (take_drop (length pathComponents) subpath) at 1. f_equal.
    apply list_eq. intros i.
    destruct (decide (i < length pathComponents)) as [Hi|Hi].
    + rewrite lookup_take_lt by done.
      specialize (Hall i). rewrite bool_decide_eq_true in Hall.
      apply Hall, in_seq. lia.
    + rewrite lookup_take_ge by lia. symmetry. apply lookup_ge_None. lia.
  - intros [rest ->]. split; [rewrite length_app; lia|].
    intros i [_ Hi]%in_seq. apply bool_decide_eq_true_2.
    by rewrite lookup_app_l by lia.
Qed.

Lemma PathHandler_route_match (pathComponents rest : list jsstring)
    (next : Handler) (nav params subpath : nat) σ :
  arrays σ !! subpath = Some (pathComponents ++ rest) →
  route (PathHandler pathComponents next) nav params subpath σ =
    route next nav params (length (arrays σ)) (with_array rest σ).
Proof.
  intros Hs. cbn [route]. rewrite (bind_readArray _ _ _ _ Hs).
  destruct (proj2 (components_match_prefix pathComponents (pathComponents ++ rest)))
    as [Hlen Hmatch]; [by eexists|].
  rewrite (bool_decide_eq_false_2 _ Hlen), Hmatch. cbn [negb].
  rewrite bind_newArray. by rewrite drop_app_length.
Qed.

Lemma PathHandler_route_mismatch (pathComponents segments : list jsstring)
    (next : Handler) (nav params subpath : nat) σ :
  arrays σ !! subpath = Some segments →
  (∀ rest, segments ≠ pathComponents ++ rest) →
  route (PathHandler pathComponents next) nav params subpath σ = Some (false, σ).
Proof.
  intros Hs Hne. cbn [route]. rewrite (bind_readArray _ _ _ _ Hs).
  case_bool_decide; [done|].
  destruct (components_match pathComponents segments) eqn:Hmatch; [|done].
  destruct (proj1 (components_match_prefix pathComponents segments))
    as [rest ->]; [done|]. by destruct (Hne rest).
Qed.

Lemma CallbackHandler_route (callback : nat) (options : ICallbackHandlerOptions)
    (nav params subpath : nat) σ props segments :
  objects σ !! params = Some props →
  arrays σ !! subpath = Some segments →
  route (CallbackHandler callback options) nav params subpath σ =
    if negb (ignoreAdditionalPath options) && negb (bool_decide (segments = []))
    then Some (false, σ)
    else Some (true, with_call (mkCall callback nav params props) σ).
Proof.
  intros Hp Hs. cbn [route]. rewrite (bind_readArray _ _ _ _ Hs).
  replace (bool_decide (length segments = 0)) with (bool_decide (segments = []))
    by (by destruct segments).
  destruct (_ && _); [done|].
  unfold invoke. by rewrite bind_bind, (bind_readObject _ _ _ _ Hp).
Qed.

Lemma first_handled_singleton (attempt : M bool) σ :
  first_handled [attempt] σ = attempt σ.
Proof.
  cbn [first_handled]. rewrite bind_run.
  by destruct (attempt σ) as [[[] ?]|].
Qed.

Lemma Subrouter_route_singleton (h : Handler) (nav params subpath : nat) σ :
  route (Subrouter [h]) nav params subpath σ = route h nav params subpath σ.
Proof. cbn [route fmap list_fmap]. apply first_handled_singleton. Qed.

(** ** C4 *)

(** C4: the path of a navigation is cut at every ['/'] and the empty pieces
    are dropped, so ['/a//b/'] gives [["a","b"]] and a trailing slash changes
    nothing.  For [path("a/b").register(cb, options)], routing a path
    succeeds exactly when its segments are ["a"], ["b"] (compared code unit
    by code unit) followed by nothing, or followed by anything when
    [ignoreAdditionalPath] is true. *)
Theorem literal_pattern_matching (cb : nat) (options : PartialOptions)
    (nav : nat) (p : jsstring) (σ : Store) :
  path_components (js "/a//b/") = [js "a"; js "b"]
  ∧ path_components (p ++ js "/") = path_components p
  ∧ path_components (js "/A/b") ≠ [js "a"; js "b"]
  ∧ ∃ handled σ',
      Router_route (literal_router cb options) nav p σ = Some (handled, σ')
      ∧ (handled = true ↔
         ∃ rest, path_components p = [js "a"; js "b"] ++ rest
                 ∧ (rest = [] ∨ partial_ignoreAdditionalPath options = Some true)).
Proof.
  split_and!; [by vm_compute | apply path_components_trailing_slash | by vm_compute |].
  unfold Router_route, literal_router, BaseRouter_path, BaseRouter_register,
    PathHandler_new, CallbackHandler_new.
  change (path_components (js "a/b")) with [js "a"; js "b"].
  rewrite bind_newArray. cbn [app fmap list_fmap].
  rewrite first_handled_singleton. unfold Router_attempt. rewrite bind_newObject.
  set (σ1 := with_object ∅ (with_array (path_components p) σ)).
  assert (arrays σ1 !! length (arrays σ) = Some (path_components p)) as Hs.
  { apply with_array_lookup_new. }
  assert ((∃ rest, path_components p = [js "a"; js "b"] ++ rest)
          ∨ ¬ (∃ rest, path_components p = [js "a"; js "b"] ++ rest))
    as [[rest Hrest]|Hno].
  { destruct (decide (take 2 (path_components p) = [js "a"; js "b"])) as [Heq|Hne].
    - left. exists (drop 2 (path_components p)).
      by rewrite <- Heq, take_drop.
    - right. intros [rest Heq]. by rewrite Heq in Hne. }
  - rewrite Hrest in Hs. rewrite (PathHandler_route_match _ _ _ _ _ _ _ Hs).
    rewrite Subrouter_route_singleton.
    erewrite CallbackHandler_route;
      [|apply with_object_lookup_new | apply with_array_lookup_new].
    cbn [ignoreAdditionalPath].
    destruct rest as [|segment rest].
    + rewrite bool_decide_eq_true_2, andb_false_r by done.
      eexists true, _. split; [done|]. split; [|done].
      intros _. exists []. auto.
    + rewrite bool_decide_eq_false_2, andb_true_r by done.
      destruct options as [[[]|]]; cbn [partial_ignoreAdditionalPath default negb].
      * eexists true, _. split; [done|]. split; [|done]. intros _.
        exists (segment :: rest). auto.
      * eexists false, _. split; [done|]. split; [done|].
        intros (rest' & Heq & Hcase). rewrite Hrest in Heq.
        injection Heq as <-. by destruct Hcase.
      * eexists false, _. split; [done|]. split; [done|].
        intros (rest' & Heq & Hcase). rewrite Hrest in Heq.
        injection Heq as <-. by destruct Hcase.
  - rewrite (PathHandler_route_mismatch _ _ _ _ _ _ _ Hs) by eauto.
    eexists _, _. split; [reflexivity|]. split; [done|].
    intros (rest & Heq & _). destruct Hno. by exists rest.
Qed.

(** ** The loop over the entries of a router *)

Lemma first_handled_app (tried later : list (M bool)) σ :
  first_handled (tried ++ later) σ =
    match first_handled tried σ with
    | Some (true, σ1) => Some (true, σ1)
    | Some (false, σ1) => first_handled later σ1
    | None => None
    end.
Proof.
  revert σ. induction tried as [|attempt tried IH]; intros σ; [done|].
  cbn [app first_handled]. rewrite !bind_run.
  destruct (attempt σ) as [[[] σ1]|]; [done | apply IH | done].
Qed.

Lemma first_handled_cons (attempt : M bool) (later : list (M bool)) σ :
  first_handled (attempt :: later) σ =
    match attempt σ with
    | Some (true, σ1) => Some (true, σ1)
    | Some (false, σ1) => first_handled later σ1
    | None => None
    end.
Proof.
  cbn [first_handled]. rewrite bind_run.
  by destruct (attempt σ) as [[[] σ1]|].
Qed.

Lemma Router_attempt_defined (nav pathComponents : nat) (h : Handler) σ :
  is_Some (arrays σ !! pathComponents) →
  ∃ handled σ', Router_attempt nav pathComponents h σ = Some (handled, σ')
                ∧ outcome_ok σ handled σ'.
Proof.
  intros [segments Hs]. unfold Router_attempt. rewrite bind_newObject.
  destruct (route_defined h nav (length (objects σ)) pathComponents
              (with_object ∅ σ)) as (handled & σ' & Hrun & Hok).
  { eexists. apply with_object_lookup_new. }
  { exists segments. by eapply extends_arrays; [apply extends_with_object|]. }
  exists handled, σ'. split; [done|].
  eapply outcome_ok_step; [apply extends_with_object | done | done].
Qed.


(** A parameter entry that validates ["42"] and then finds no ["x"] fails
    as a whole; the literal entry registered after it is tried on the same
    segments and wins. *)
Lemma overlapping_router_second_entry :
  ∃ hs m, overlapping_router 1 2 = Normal hs
    ∧ run [Navigate (Url (js "/42")); WalkCompletes 0] (boot hs) = Some m
    ∧ tasks m = [Resolved true]
    ∧ (λ c, (call_callback c, call_params c)) <$> calls (store (router m))
      = [(2, ∅)].
Proof. eexists _, _. split; [by vm_compute|]. by vm_compute. Qed.

(** ** C3 *)



(** ** C10 *)

(** The three ways a parameter matcher can go: no segment; validator
    failure; delegation, on cells that did not exist before. *)
Lemma param_matcher_cases (h : Handler) (nav params subpath : nat)
    (σ : Store) (props : object) (segments : list jsstring) :
  objects σ !! params = Some props →
  arrays σ !! subpath = Some segments →
  match h with
  | ParamHandler _ _ next | MultiParamHandler _ _ next =>
      (segments = [] ∧ route h nav params subpath σ = Some (false, σ))
      ∨ (∃ rest, route h nav params subpath σ = Some (false, with_array rest σ))
      ∨ (∃ v rest,
           route h nav params subpath σ =
             route next nav (length (objects σ)) (length (arrays σ))
                   (with_object (v ∪ props) (with_array rest σ)))
  | _ => True
  end.
Proof.
  intros Hp Hs. destruct h as [| key validator next | key validator next | |];
    [done | | | done | done];
    cbn [route]; unfold BaseParamHandler_route, ParamHandler_validate,
      MultiParamHandler_validate;
    rewrite (bind_readArray _ _ _ _ Hs);
    (case_bool_decide as Hlen; [left; by destruct segments|]);
    rewrite bind_bind, (bind_readArray _ _ _ _ Hs), bind_bind, bind_newArray, bind_ret;
    (destruct (validate _ _) as [v|]; [|right; left; by eexists]);
    (erewrite bind_readObject by exact Hp); rewrite bind_newObject;
    right; right; by eexists _, _.
Qed.

(** C10: a parameter matcher called with live references returns; whatever
    it answers, the caller's accumulator object and segment list, like every
    other cell that existed, hold afterwards what they held before.  When it
    delegates, the continuation receives a new object (the accumulator
    merged with the validated value) and a new segment list.  When it
    answers [false], because no segment remained, because the validator
    failed, or because the continuation failed, no callback has run, and the
    enclosing router goes on with the following entries on the same
    accumulator and segment list. *)
Theorem param_matcher_frame (h : Handler) (nav params subpath : nat)
    (σ : Store) (props : object) (segments : list jsstring) :
  is_param_matcher h →
  objects σ !! params = Some props →
  arrays σ !! subpath = Some segments →
  ∃ handled σ',
    route h nav params subpath σ = Some (handled, σ')
    ∧ extends σ σ'
    ∧ objects σ' !! params = Some props
    ∧ arrays σ' !! subpath = Some segments
    ∧ (handled = false →
         calls σ' = calls σ
         ∧ ∀ later, route (Subrouter (h :: later)) nav params subpath σ
                    = route (Subrouter later) nav params subpath σ')
    ∧ match h with
      | ParamHandler _ _ next | MultiParamHandler _ _ next =>
          (segments = [] ∧ σ' = σ)
          ∨ (∃ rest, handled = false ∧ σ' = with_array rest σ)
          ∨ (∃ v rest,
               params < length (objects σ) ∧ subpath < length (arrays σ)
               ∧ route next nav (length (objects σ)) (length (arrays σ))
                       (with_object (v ∪ props) (with_array rest σ))
                 = Some (handled, σ'))
      | _ => True
      end.
Proof.
  intros Hh Hp Hs.
  destruct (route_defined h nav params subpath σ (mk_is_Some _ _ Hp) (mk_is_Some _ _ Hs))
    as (handled & σ' & Hrun & Hext & Hcalls).
  exists handled, σ'. split_and!;
    [done | done | by eapply extends_objects | by eapply extends_arrays | |].
  - intros ->. split; [done|]. intros later.
    cbn [route]. by rewrite fmap_cons, first_handled_cons, Hrun.
  - pose proof (param_matcher_cases h nav params subpath σ props segments Hp Hs)
      as Hcases.
    destruct h; try done;
      (destruct Hcases as [[-> Hc]|[[rest Hc]|(v & rest & Hc)]];
       [left; split; [done|congruence]
       |right; left; exists rest; split; congruence
       |right; right; exists v, rest; split_and!;
          [by eapply lookup_lt_Some | by eapply lookup_lt_Some | congruence]]).
Qed.

Lemma param_matcher_frame_witness :
  ∃ σ', route (ParamHandler (js "id") idValidator
                 (Subrouter [PathHandler [js "x"]
                               (Subrouter [CallbackHandler 1 (mkOptions false)])]))
              0 0 0 (mkStore [∅] [[js "42"]] []) = Some (false, σ')
        ∧ objects σ' !! 0 = Some ∅
        ∧ arrays σ' !! 0 = Some [js "42"]
        ∧ calls σ' = [].
Proof.
  destruct (param_matcher_frame
              (ParamHandler (js "id") idValidator
                 (Subrouter [PathHandler [js "x"]
                               (Subrouter [CallbackHandler 1 (mkOptions false)])]))
              0 0 0 (mkStore [∅] [[js "42"]] []) ∅ [js "42"] I eq_refl eq_refl)
    as (handled & σ' & Hrun & _ & Hp & Hs & Hfalse & _).
  assert (handled = false) as ->.
  { vm_compute in Hrun. by injection Hrun as <- _. }
  exists σ'. split_and!; [done | done | done | by apply Hfalse].
Defined.

(** ** The sequencer *)

Lemma set_cancelled_lookup (pending n : nat) (navs : list Navigation) nav :
  navs !! n = Some nav →
  ∃ nav', set_cancelled pending navs !! n = Some nav'
          ∧ (cancelled nav' = true ↔ n = pending ∨ cancelled nav = true)
          ∧ url nav' = url nav ∧ path nav' = path nav ∧ query nav' = query nav.
Proof.
  intros Hn. unfold set_cancelled.
  destruct (decide (pending = n)) as [->|Hne].
  - rewrite list_lookup_alter_eq, Hn. eexists. split; [done|]. cbn. tauto.
  - rewrite list_lookup_alter_ne, Hn by done. exists nav.
    split_and!; [done | | done..]. split; [auto|]. by intros [->|].
Qed.

(** [navigate_resume] always returns what the route walk answered; it
    commits exactly when the walk answered [true] and the Navigation is not
    cancelled. *)
Lemma navigate_resume_spec (n : nat) (handled : bool) (r : Router)
    (nav : Navigation) :
  navs r !! n = Some nav →
  ∃ r', navigate_resume n handled r = Some (handled, r')
    ∧ nextNav r' = None
    ∧ navs r' = navs r
    ∧ handlers r' = handlers r
    ∧ if handled && negb (cancelled nav)
      then currentNav r' = Some n
           ∧ navigated r' = navigated r ++ [n]
           ∧ setUrl_calls r' = setUrl_calls r ++ [n]
      else currentNav r' = currentNav r
           ∧ navigated r' = navigated r
           ∧ setUrl_calls r' = setUrl_calls r.
Proof.
  intros Hn. unfold navigate_resume. rewrite Hn. cbn [mbind option_bind].
  destruct (handled && negb (cancelled nav)); eexists; by split_and!.
Qed.

(** A call of [navigate] leaves the Navigation objects that exist in place;
    it cancels the one [nextNav] points to and no other, and never resets
    [cancelled]. *)
Lemma navigate_start_navs (arg : NavigateArg) (r r' : Router) (st : Started)
    (n : nat) (nav : Navigation) :
  navigate_start arg r = Some (st, r') →
  navs r !! n = Some nav →
  ∃ nav', navs r' !! n = Some nav'
    ∧ (cancelled nav = true → cancelled nav' = true)
    ∧ (handlers r ≠ [] → nextNav r = Some n → cancelled nav' = true).
Proof.
  unfold navigate_start. intros Hstart Hn.
  case_bool_decide as Hlen.
  { injection Hstart as <- <-. exists nav. split_and!; [done..|].
    intros Hne. by destruct (handlers r). }
  set (navs1 := match nextNav r with
                | Some pending => set_cancelled pending (navs r)
                | None => navs r
                end) in *.
  assert (∃ nav', navs1 !! n = Some nav'
            ∧ (cancelled nav = true → cancelled nav' = true)
            ∧ (nextNav r = Some n → cancelled nav' = true))
    as (nav1 & Hn1 & Hkeep & Hcancel).
  { subst navs1. destruct (nextNav r) as [pending|].
    - destruct (set_cancelled_lookup pending n _ _ Hn) as (nav' & Hn' & Hc & _).
      exists nav'. split_and!; [done | tauto |].
      intros [= ->]. tauto.
    - exists nav. by split_and!. }
  destruct arg as [u|k].
  - destruct (createFromUrl u) as [created|e].
    + assert ((navs1 ++ [created]) !! length navs1 = Some created) as Hnew
        by (by rewrite lookup_app_r, Nat.sub_diag).
      rewrite Hnew in Hstart. cbn [mbind option_bind] in Hstart.
      destruct (Router_route _ _ _ _) as [[handled σ']|]; [|done].
      injection Hstart as <- <-. exists nav1. cbn.
      split_and!; [by apply lookup_app_l_Some | done | auto].
    + injection Hstart as <- <-. exists nav1. by split_and!; auto.
  - destruct (navs1 !! k) as [nav_k|]; [|done].
    cbn [mbind option_bind] in Hstart.
    destruct (Router_route _ _ _ _) as [[handled σ']|]; [|done].
    injection Hstart as <- <-. exists nav1. by split_and!; auto.
Qed.

Lemma step_cancelled_persists (e : Event) (m m' : Machine) (n : nat)
    (nav : Navigation) :
  step e m = Some m' →
  navs (router m) !! n = Some nav → cancelled nav = true →
  ∃ nav', navs (router m') !! n = Some nav' ∧ cancelled nav' = true.
Proof.
  intros Hstep Hn Hc. destruct e as [arg|i]; cbn [step] in Hstep.
  - destruct (navigate_start arg (router m)) as [[st r']|] eqn:Hstart; [|done].
    injection Hstep as <-.
    destruct (navigate_start_navs _ _ _ _ _ _ Hstart Hn) as (nav' & ? & ? & _).
    exists nav'. auto.
  - destruct (tasks m !! i) as [[k handled| |]|]; try done.
    destruct (navs (router m) !! k) as [nav_k|] eqn:Hk.
    + destruct (navigate_resume_spec k handled _ _ Hk) as (r' & Hres & _ & Hnavs & _).
      rewrite Hres in Hstep. injection Hstep as <-. exists nav. cbn.
      by rewrite Hnavs.
    + unfold navigate_resume in Hstep. by rewrite Hk in Hstep.
Qed.

Lemma run_cancelled_persists (schedule : list Event) (m m' : Machine) (n : nat)
    (nav : Navigation) :
  run schedule m = Some m' →
  navs (router m) !! n = Some nav → cancelled nav = true →
  ∃ nav', navs (router m') !! n = Some nav' ∧ cancelled nav' = true.
Proof.
  revert m nav. induction schedule as [|e rest IH]; intros m nav Hrun Hn Hc.
  { injection Hrun as <-. eauto. }
  cbn [run] in Hrun. destruct (step e m) as [m1|] eqn:Hstep; [|done].
  destruct (step_cancelled_persists _ _ _ _ _ Hstep Hn Hc) as (nav1 & Hn1 & Hc1).
  by eapply IH.
Qed.

(** X17: the guarantee the cancellation mechanism does give: a navigation
    that is the one recorded in [nextNav] when the next call of [navigate]
    starts routing is never committed, however the walks interleave
    afterwards. *)
Lemma recorded_pending_never_commits (arg : NavigateArg) (m m1 m2 m3 : Machine)
    (schedule : list Event) (a i : nat) (handled : bool) :
  nextNav (router m) = Some a →
  is_Some (navs (router m) !! a) →
  handlers (router m) ≠ [] →
  step (Navigate arg) m = Some m1 →
  run schedule m1 = Some m2 →
  tasks m2 !! i = Some (Pending a handled) →
  step (WalkCompletes i) m2 = Some m3 →
  tasks m3 !! i = Some (Resolved handled)
  ∧ currentNav (router m3) = currentNav (router m2)
  ∧ navigated (router m3) = navigated (router m2)
  ∧ setUrl_calls (router m3) = setUrl_calls (router m2).
Proof.
  intros Hnext [nav Ha] Hhandlers Hstep Hrun Htask Hdone.
  cbn [step] in Hstep.
  destruct (navigate_start arg (router m)) as [[st r1]|] eqn:Hstart; [|done].
  injection Hstep as <-.
  destruct (navigate_start_navs _ _ _ _ _ _ Hstart Ha) as (nav1 & Ha1 & _ & Hc1).
  destruct (run_cancelled_persists _ _ _ _ _ Hrun Ha1 (Hc1 Hhandlers Hnext))
    as (nav2 & Ha2 & Hc2).
  cbn [step] in Hdone. rewrite Htask in Hdone.
  destruct (navigate_resume_spec a handled _ _ Ha2) as (r3 & Hres & _ & _ & _ & Hcommit).
  rewrite Hres in Hdone. injection Hdone as <-. cbn.
  rewrite Hc2, andb_false_r in Hcommit.
  split; [|done]. apply list_lookup_insert_eq. by eapply lookup_lt_Some.
Qed.

(** ** C1 *)

(** C1, as stated, fails: [navigate] returns [handled], the answer of the
    route walk, also when the Navigation was cancelled in the meantime.  Two
    calls for a registered route, the first walk completing after the second
    call: the first Navigation is cancelled and is not committed, and the
    first call resolves to [true]. *)
Lemma cancelled_navigation_resolves_true :
  ∃ m, run [Navigate (Url (js "/a/b")); Navigate (Url (js "/a/b?later"));
            WalkCompletes 0]
           (boot (literal_router 0 no_options)) = Some m
       ∧ (cancelled <$> navs (router m) !! 0) = Some true
       ∧ currentNav (router m) = None
       ∧ navigated (router m) = []
       ∧ tasks m !! 0 = Some (Resolved true)
       ∧ tasks m !! 0 ≠ Some (Resolved false).
Proof. eexists. split; [by vm_compute|]. by vm_compute. Qed.

Lemma Router_route_defined (hs : list Handler) (nav : nat) (p : jsstring) σ :
  ∃ handled σ', Router_route hs nav p σ = Some (handled, σ').
Proof.
  unfold Router_route. rewrite bind_newArray.
  destruct (first_handled_defined
              (Router_attempt nav (length (arrays σ)) <$> hs)
              (with_array (path_components p) σ))
    as (handled & σ' & Hrun & _); [|by eauto].
  apply Forall_fmap, Forall_forall. intros h _ σ1 Hσ1.
  apply Router_attempt_defined. eexists.
  eapply extends_arrays; [done|]. apply with_array_lookup_new.
Qed.

(** A call that reaches the route walk has made its Navigation the pending
    one, and waits for the answer of [Router.route] on that Navigation's
    path. *)
Lemma navigate_start_awaiting (arg : NavigateArg) (r r' : Router) (k : nat)
    (answered : bool) :
  navigate_start arg r = Some (Awaiting k answered, r') →
  ∃ nav_k σ', navs r' !! k = Some nav_k
    ∧ Router_route (handlers r) k (path nav_k) (store r) = Some (answered, σ')
    ∧ nextNav r' = Some k.
Proof.
  unfold navigate_start. case_bool_decide; [done|].
  set (navs1 := match nextNav r with
                | Some pending => set_cancelled pending (navs r)
                | None => navs r
                end).
  destruct arg as [u|j].
  - destruct (createFromUrl u) as [created|e]; [|done].
    assert ((navs1 ++ [created]) !! length navs1 = Some created) as Hnew
      by (by rewrite lookup_app_r, Nat.sub_diag).
    rewrite Hnew. cbn [mbind option_bind].
    destruct (Router_route _ _ _ _) as [[b σ']|] eqn:Hroute; [|done].
    intros [= <- <- <-]. by exists created, σ'.
  - destruct (navs1 !! j) as [nav_j|] eqn:Hj; [|done].
    cbn [mbind option_bind].
    destruct (Router_route _ _ _ _) as [[b σ']|] eqn:Hroute; [|done].
    intros [= <- <- <-]. by exists nav_j, σ'.
Qed.

(** A call of [navigate] with a URL always gets somewhere: it returns at
    once, is rejected by [createFromUrl], or starts a walk. *)
Lemma navigate_start_url_defined (u : jsstring) (r : Router) :
  is_Some (navigate_start (Url u) r).
Proof.
  unfold navigate_start. case_bool_decide; [done|].
  destruct (createFromUrl u) as [created|e]; [|done].
  rewrite lookup_app_r, Nat.sub_diag by done. cbn [lookup list_lookup mbind option_bind].
  destruct (Router_route_defined (handlers r) (length
              match nextNav r with
              | Some pending => set_cancelled pending (navs r)
              | None => navs r
              end) (path created) (store r)) as (handled & σ' & ->).
  done.
Qed.

Lemma step_pending_valid (e : Event) (m m' : Machine) :
  pending_valid m → step e m = Some m' → pending_valid m'.
Proof.
  intros Hvalid Hstep i n handled Htask. destruct e as [arg|j]; cbn [step] in Hstep.
  - destruct (navigate_start arg (router m)) as [[st r']|] eqn:Hstart; [|done].
    injection Hstep as <-. cbn in *.
    apply lookup_app_Some in Htask as [Htask|[_ Htask]].
    + destruct (Hvalid _ _ _ Htask) as [nav Hnav].
      destruct (navigate_start_navs _ _ _ _ _ _ Hstart Hnav) as (nav' & ? & _).
      by exists nav'.
    + destruct (i - length (tasks m)) as [|?]; [|done].
      destruct st as [b|e|k answered]; try done.
      injection Htask as -> ->.
      destruct (navigate_start_awaiting _ _ _ _ _ Hstart) as (nav_k & _ & ? & _).
      by exists nav_k.
  - destruct (tasks m !! j) as [[k answered| |]|] eqn:Hj; try done.
    destruct (navigate_resume k answered (router m)) as [[result r']|] eqn:Hres;
      [|done].
    injection Hstep as <-. cbn in *.
    destruct (Hvalid _ _ _ Hj) as [nav_k Hk].
    destruct (navigate_resume_spec k answered _ _ Hk) as (r'' & Hres' & _ & Hnavs & _).
    rewrite Hres in Hres'. injection Hres' as _ ->. rewrite Hnavs.
    destruct (decide (i = j)) as [->|Hne].
    + rewrite list_lookup_insert_eq in Htask by (by eapply lookup_lt_Some). done.
    + rewrite list_lookup_insert_ne in Htask by done. by eapply Hvalid.
Qed.

Lemma run_pending_valid (schedule : list Event) (m m' : Machine) :
  pending_valid m → run schedule m = Some m' → pending_valid m'.
Proof.
  revert m. induction schedule as [|e rest IH]; intros m Hvalid Hrun.
  { by injection Hrun as <-. }
  cbn [run] in Hrun. destruct (step e m) as [m1|] eqn:Hstep; [|done].
  eapply IH; [|done]. by eapply step_pending_valid.
Qed.

Lemma boot_pending_valid (hs : list Handler) : pending_valid (boot hs).
Proof. intros i n handled Htask. by destruct i. Qed.

(** C1 (amended): in every state the router can be brought to, when the
    route walk of a pending call of [navigate] completes, the call resolves
    to the answer of the walk ([true] exactly when a registered route
    matched), whether or not the Navigation was cancelled in the meantime;
    the pending marker is cleared; the Navigation is committed (made current,
    announced on [navigatedEvent], handed to the history adapter) exactly
    when the walk answered [true] and the Navigation's [cancelled] flag is
    false at that moment, and otherwise the current Navigation stays what it
    was.  With no registered entry [navigate] resolves to [false] at once. *)
Theorem navigate_resolves_to_handled (hs : list Handler)
    (schedule : list Event) (m : Machine) (i n : nat) (handled : bool) :
  run schedule (boot hs) = Some m →
  tasks m !! i = Some (Pending n handled) →
  (∃ nav m',
     navs (router m) !! n = Some nav
     ∧ step (WalkCompletes i) m = Some m'
     ∧ tasks m' !! i = Some (Resolved handled)
     ∧ nextNav (router m') = None
     ∧ navs (router m') = navs (router m)
     ∧ if handled && negb (cancelled nav)
       then currentNav (router m') = Some n
            ∧ navigated (router m') = navigated (router m) ++ [n]
            ∧ setUrl_calls (router m') = setUrl_calls (router m) ++ [n]
       else currentNav (router m') = currentNav (router m)
            ∧ navigated (router m') = navigated (router m)
            ∧ setUrl_calls (router m') = setUrl_calls (router m))
  ∧ (∀ arg r k answered r',
       navigate_start arg r = Some (Awaiting k answered, r') →
       ∃ nav_k σ', navs r' !! k = Some nav_k
         ∧ Router_route (handlers r) k (path nav_k) (store r) = Some (answered, σ')
         ∧ nextNav r' = Some k)
  ∧ (∀ arg r, handlers r = [] → navigate_start arg r = Some (Returned false, r)).
Proof.
  intros Hrun Htask. split_and!.
  - destruct (run_pending_valid _ _ _ (boot_pending_valid hs) Hrun _ _ _ Htask)
      as [nav Hn].
    destruct (navigate_resume_spec n handled _ _ Hn)
      as (r' & Hres & Hnext & Hnavs & _ & Hcommit).
    exists nav. cbn [step]. rewrite Htask, Hres. eexists. split; [done|].
    split; [done|]. cbn.
    split_and!; [|done..]. apply list_lookup_insert_eq. by eapply lookup_lt_Some.
  - intros arg r k answered r'. apply navigate_start_awaiting.
  - intros arg r Hnone. unfold navigate_start. by rewrite Hnone.
Qed.

Lemma navigate_resolves_to_handled_witness :
  ∃ m m',
    run [Navigate (Url (js "/a/b")); Navigate (Url (js "/a/b?later"))]
        (boot (literal_router 0 no_options)) = Some m
    ∧ step (WalkCompletes 0) m = Some m'
    ∧ tasks m' !! 0 = Some (Resolved true)
    ∧ currentNav (router m') = None.
Proof.
  assert (∃ m,
            run [Navigate (Url (js "/a/b")); Navigate (Url (js "/a/b?later"))]
                (boot (literal_router 0 no_options)) = Some m
            ∧ tasks m !! 0 = Some (Pending 0 true)
            ∧ (cancelled <$> navs (router m) !! 0) = Some true
            ∧ currentNav (router m) = None)
    as (m & Hrun & Htask & Hcancelled & Hcurrent).
  { eexists. split; [by vm_compute|]. by vm_compute. }
  destruct (navigate_resolves_to_handled _ _ _ _ _ _ Hrun Htask)
    as ((nav & m' & Hnav & Hstep & Hdone & _ & _ & Hcommit) & _).
  exists m, m'. split_and!; [done..|].
  rewrite Hnav in Hcancelled. injection Hcancelled as Hc.
  rewrite Hc, andb_false_r in Hcommit. destruct Hcommit as (-> & _). done.
Defined.

(** ** C2 *)

(** C2 is broken by the code whenever three calls overlap.  The pending
    marker is cleared by whichever walk completes, also a cancelled one, so a
    call made after that finds no pending navigation to cancel.  Below the
    second navigation is still pending when the third call is made, its walk
    completes after that, and it is committed: [currentNav] is set to it and
    [navigatedEvent] fires for it. *)
Theorem superseded_navigation_commits :
  ∃ m3 m4,
    run [Navigate (Url (js "/a/b")); Navigate (Url (js "/a/b/"));
         WalkCompletes 0; Navigate (Url (js "/a/b?x=1"))]
        (boot (literal_router 0 no_options)) = Some m3
    ∧ tasks m3 = [Resolved true; Pending 1 true; Pending 2 true]
    ∧ (cancelled <$> navs (router m3)) = [true; false; false]
    ∧ currentNav (router m3) = None
    ∧ navigated (router m3) = []
    ∧ step (WalkCompletes 1) m3 = Some m4
    ∧ tasks m4 = [Resolved true; Resolved true; Pending 2 true]
    ∧ currentNav (router m4) = Some 1
    ∧ navigated (router m4) = [1]
    ∧ setUrl_calls (router m4) = [1].
Proof. eexists _, _. split; [by vm_compute|]. by vm_compute. Qed.

(** * Properties beyond the specification *)

(** ** What a route walk computes *)

Lemma first_some_cons {A B} (f : A → option B) (x : A) (l : list A) :
  first_some f (x :: l) =
    match f x with Some y => Some y | None => first_some f l end.
Proof. unfold first_some. cbn. by destruct (f x). Qed.

Lemma first_some_app {A B} (f : A → option B) (l1 l2 : list A) :
  first_some f (l1 ++ l2) =
    match first_some f l1 with Some y => Some y | None => first_some f l2 end.
Proof.
  induction l1 as [|x l1 IH]; [done|].
  cbn [app]. rewrite !first_some_cons. by destruct (f x).
Qed.

Lemma new_calls_refl σ : new_calls σ σ = [].
Proof. unfold new_calls. by rewrite drop_all. Qed.

Lemma new_calls_same σ σ' : calls σ' = calls σ → new_calls σ σ' = [].
Proof. unfold new_calls. intros ->. by rewrite drop_all. Qed.

Lemma new_calls_trans σ σ1 σ' :
  calls σ1 = calls σ → new_calls σ σ' = new_calls σ1 σ'.
Proof. unfold new_calls. by intros ->. Qed.

Lemma realises_step nav σ σ1 d r :
  extends σ σ1 → calls σ1 = calls σ → realises nav σ1 d r → realises nav σ d r.
Proof.
  intros Hext Hcalls (σ' & -> & Hext' & Hnew). exists σ'.
  split_and!; [done | by eapply extends_trans |].
  by rewrite (new_calls_trans σ σ1).
Qed.

Lemma realises_none nav σ σ1 :
  extends σ σ1 → calls σ1 = calls σ → realises nav σ None (Some (false, σ1)).
Proof.
  intros Hext Hcalls. exists σ1. split_and!; [done..|]. by apply new_calls_same.
Qed.

Lemma take_prefix_iff (pc segments : list jsstring) :
  take (length pc) segments = pc ↔ ∃ rest, segments = pc ++ rest.
Proof.
  split.
  - intros Heq. exists (drop (length pc) segments). by rewrite <- Heq at 1; rewrite take_drop.
  - intros [rest ->]. by rewrite take_app_length.
Qed.

(** A loop over entries realises the first result that names a callback. *)
Lemma first_handled_realises (nav : nat) (attempts : list (M bool))
    (ds : list (option (nat * object))) σ :
  Forall2 (λ (attempt : M bool) d, ∀ σ1, extends σ σ1 →
             realises nav σ1 d (attempt σ1)) attempts ds →
  realises nav σ (head (omap id ds)) (first_handled attempts σ).
Proof.
  revert σ attempts.
  induction ds as [|d ds IH]; intros σ attempts Hall.
  { apply Forall2_nil_inv_r in Hall as ->. by apply realises_none. }
  apply Forall2_cons_inv_r in Hall as (attempt & rest & Hattempt & Hrest & ->).
  rewrite first_handled_cons.
  destruct (Hattempt σ) as (σ1 & Hrun & Hext & Hnew); [apply extends_refl|].
  rewrite Hrun. destruct d as [[cb ps]|]; cbn.
  - by exists σ1.
  - cbn in Hnew.
    assert (calls σ1 = calls σ) as Hcalls.
    { destruct Hext as (_ & _ & [extra Hextra]). unfold new_calls in Hnew.
      rewrite Hextra, drop_app_length in Hnew. apply fmap_nil_inv in Hnew.
      by rewrite Hextra, Hnew, app_nil_r. }
    eapply realises_step; [done | done |]. apply IH.
    eapply Forall2_impl; [exact Hrest|]. intros a d Ha σ2 Hσ2.
    apply Ha. by eapply extends_trans.
Qed.

(** [BaseParamHandler.route] with [ParamHandler.validate], for any
    validator. *)
Lemma ParamHandler_route_any (key : jsstring) (validator : Validator)
    (next : Handler) (nav params subpath : nat) (σ : Store) (props : object)
    (segments : list jsstring) :
  objects σ !! params = Some props →
  arrays σ !! subpath = Some segments →
  route (ParamHandler key validator next) nav params subpath σ =
    match segments with
    | [] => Some (false, σ)
    | segment :: rest =>
        match conformsTo validator {[ key := VString segment ]} with
        | Failure => Some (false, with_array rest σ)
        | Success v =>
            route next nav (length (objects σ)) (length (arrays σ))
                  (with_object (v ∪ props) (with_array rest σ))
        end
    end.
Proof.
  intros Hp Hs. cbn [route]. unfold BaseParamHandler_route, ParamHandler_validate.
  rewrite (bind_readArray _ _ _ _ Hs).
  destruct segments as [|segment rest]; [done|].
  rewrite bool_decide_eq_false_2 by done.
  rewrite bind_bind, (bind_readArray _ _ _ _ Hs), bind_bind, bind_newArray, bind_ret.
  unfold validate. cbn [lookup list_lookup from_option drop].
  destruct (conformsTo validator _) as [v|]; [|done].
  erewrite bind_readObject by exact Hp. by rewrite bind_newObject.
Qed.

(** [BaseParamHandler.route] with [MultiParamHandler.validate], for any
    validator. *)
Lemma MultiParamHandler_route_any (key : jsstring) (validator : Validator)
    (next : Handler) (nav params subpath : nat) (σ : Store) (props : object)
    (segments : list jsstring) :
  objects σ !! params = Some props →
  arrays σ !! subpath = Some segments →
  route (MultiParamHandler key validator next) nav params subpath σ =
    match segments with
    | [] => Some (false, σ)
    | _ :: _ =>
        match conformsTo validator {[ key := VArray (VString <$> segments) ]} with
        | Failure => Some (false, with_array [] σ)
        | Success v =>
            route next nav (length (objects σ)) (length (arrays σ))
                  (with_object (v ∪ props) (with_array [] σ))
        end
    end.
Proof.
  intros Hp Hs. cbn [route]. unfold BaseParamHandler_route, MultiParamHandler_validate.
  rewrite (bind_readArray _ _ _ _ Hs).
  destruct segments as [|segment rest]; [done|].
  rewrite bool_decide_eq_false_2 by done.
  rewrite bind_bind, (bind_readArray _ _ _ _ Hs), bind_bind, bind_newArray, bind_ret.
  unfold validate.
  destruct (conformsTo validator _) as [v|]; [|done].
  erewrite bind_readObject by exact Hp. by rewrite bind_newObject.
Qed.

(** The walk of a handler tree in the store computes [dispatch]: it ends,
    keeps every earlier cell, answers [true] exactly when [dispatch] names a
    callback, and has then invoked that callback once, with the parameters
    [dispatch] gives, and no other. *)
Lemma route_realises (h : Handler) (nav params subpath : nat) (σ : Store)
    (props : object) (segments : list jsstring) :
  objects σ !! params = Some props →
  arrays σ !! subpath = Some segments →
  realises nav σ (dispatch h props segments) (route h nav params subpath σ).
Proof.
  revert params subpath σ props segments.
  induction h as [pathComponents next IH | key validator next IH
                 | key validator next IH | handlers IH | callback options]
    using Handler_tree_ind; intros params subpath σ props segments Hp Hs.
  - cbn [dispatch]. destruct (decide _) as [Hpre|Hpre].
    + apply take_prefix_iff in Hpre as [rest ->].
      rewrite (PathHandler_route_match _ _ _ _ _ _ _ Hs), drop_app_length.
      eapply realises_step; [apply extends_with_array | done |].
      apply IH; [by eapply extends_objects; [apply extends_with_array|]|].
      apply with_array_lookup_new.
    + rewrite (PathHandler_route_mismatch _ _ _ _ _ _ _ Hs).
      * by apply realises_none; [apply extends_refl|].
      * intros rest ->. destruct Hpre. by rewrite take_app_length.
  - rewrite (ParamHandler_route_any _ _ _ _ _ _ _ _ _ Hp Hs). cbn [dispatch].
    destruct segments as [|segment rest];
      [by apply realises_none; [apply extends_refl|]|].
    destruct (conformsTo validator _) as [v|];
      [|by apply realises_none; [apply extends_with_array|]].
    eapply (realises_step _ _ (with_object (v ∪ props) (with_array rest σ)));
      [|done|].
    { eapply extends_trans; [apply extends_with_array | apply extends_with_object]. }
    apply IH; [exact (with_object_lookup_new _ (with_array _ σ))|].
    eapply extends_arrays; [apply extends_with_object | apply with_array_lookup_new].
  - rewrite (MultiParamHandler_route_any _ _ _ _ _ _ _ _ _ Hp Hs). cbn [dispatch].
    destruct segments as [|segment rest];
      [by apply realises_none; [apply extends_refl|]|].
    destruct (conformsTo validator _) as [v|];
      [|by apply realises_none; [apply extends_with_array|]].
    eapply (realises_step _ _ (with_object (v ∪ props) (with_array [] σ)));
      [|done|].
    { eapply extends_trans; [apply extends_with_array | apply extends_with_object]. }
    apply IH; [exact (with_object_lookup_new _ (with_array _ σ))|].
    eapply extends_arrays; [apply extends_with_object | apply with_array_lookup_new].
  - cbn [route dispatch]. unfold first_some.
    replace (omap (λ handler, dispatch handler props segments) handlers)
      with (omap id ((λ handler, dispatch handler props segments) <$> handlers)).
    2:{ clear. induction handlers as [|h hs IHl]; [done|]. cbn.
        destruct (dispatch h props segments); cbn; by rewrite IHl. }
    apply first_handled_realises. apply Forall2_fmap, Forall_Forall2_diag.
    eapply Forall_impl; [exact IH|]. intros h Hh σ1 Hσ1.
    apply Hh; [by eapply extends_objects | by eapply extends_arrays].
  - rewrite (CallbackHandler_route _ _ _ _ _ _ _ _ Hp Hs). cbn [dispatch].
    destruct (ignoreAdditionalPath options), (bool_decide (segments = [])); cbn.
    all: try (eexists; split_and!; [done | apply extends_with_call |];
              unfold new_calls; cbn; by rewrite drop_app_length).
    by apply realises_none; [apply extends_refl|].
Qed.

Lemma walk_dispatch (h : Handler) (nav params subpath : nat) (σ : Store)
    (props : object) (segments : list jsstring) :
  objects σ !! params = Some props →
  arrays σ !! subpath = Some segments →
  walk h nav params subpath σ = Some (walk_outcome nav (dispatch h props segments)).
Proof.
  intros Hp Hs. unfold walk.
  destruct (route_realises h nav params subpath σ props segments Hp Hs)
    as (σ' & -> & _ & Hnew).
  cbn. rewrite Hnew. by destruct (walk_outcome _ _).
Qed.

Lemma Router_attempt_realises (h : Handler) (nav pathComponents : nat)
    (σ : Store) (segments : list jsstring) :
  arrays σ !! pathComponents = Some segments →
  realises nav σ (dispatch h ∅ segments) (Router_attempt nav pathComponents h σ).
Proof.
  intros Hs. unfold Router_attempt. rewrite bind_newObject.
  eapply (realises_step _ _ (with_object ∅ σ));
    [apply extends_with_object | done |].
  apply route_realises; [apply with_object_lookup_new|].
  by eapply extends_arrays; [apply extends_with_object|].
Qed.

Lemma omap_id_fmap {A B} (f : A → option B) (l : list A) :
  omap id (f <$> l) = omap f l.
Proof.
  induction l as [|x l IH]; [done|]. cbn. destruct (f x); cbn; by rewrite IH.
Qed.

Lemma Router_route_realises (hs : list Handler) (nav : nat) (p : jsstring)
    (σ : Store) :
  realises nav σ (Router_dispatch hs p) (Router_route hs nav p σ).
Proof.
  unfold Router_route, Router_dispatch, first_some. rewrite bind_newArray.
  eapply (realises_step _ _ (with_array (path_components p) σ));
    [apply extends_with_array | done |].
  rewrite <- omap_id_fmap.
  apply first_handled_realises. apply Forall2_fmap, Forall_Forall2_diag.
  apply Forall_forall. intros h _ σ1 Hσ1.
  apply Router_attempt_realises.
  eapply extends_arrays; [done|]. apply with_array_lookup_new.
Qed.

Lemma Router_walk_dispatch (hs : list Handler) (nav : nat) (p : jsstring)
    (σ : Store) :
  Router_walk hs nav p σ = Some (walk_outcome nav (Router_dispatch hs p)).
Proof.
  unfold Router_walk.
  destruct (Router_route_realises hs nav p σ) as (σ' & -> & _ & Hnew).
  cbn. rewrite Hnew. by destruct (walk_outcome _ _).
Qed.

(** X1: what a walk answers and which callback it invokes with which
    parameters depends on the contents of the parameter object and of the
    segment array it is given, not on where they live nor on what else the
    store holds. *)
Theorem routing_depends_on_contents (h : Handler) (nav : nat)
    (params1 subpath1 params2 subpath2 : nat) (σ1 σ2 : Store)
    (props : object) (segments : list jsstring) :
  objects σ1 !! params1 = Some props →
  arrays σ1 !! subpath1 = Some segments →
  objects σ2 !! params2 = Some props →
  arrays σ2 !! subpath2 = Some segments →
  walk h nav params1 subpath1 σ1 = walk h nav params2 subpath2 σ2.
Proof.
  intros Hp1 Hs1 Hp2 Hs2.
  by rewrite (walk_dispatch _ _ _ _ _ _ _ Hp1 Hs1),
             (walk_dispatch _ _ _ _ _ _ _ Hp2 Hs2).
Qed.

Lemma routing_depends_on_contents_witness :
  walk (CallbackHandler_new 0 no_options) 0 0 0
       (with_array [] (with_object ∅ empty_store))
  = walk (CallbackHandler_new 0 no_options) 0 1 1
       (with_object ∅ (with_object {[ js "k" := VString [] ]}
          (with_array [] (with_array [js "x"] empty_store)))).
Proof.
  apply (routing_depends_on_contents _ 0 0 0 1 1 _ _ ∅ []); reflexivity.
Defined.

(** X2: [Router.route] always ends, and what it answers and invokes is
    the same in every store.  It invokes at most one callback: exactly one,
    with the Navigation being routed, when it answers [true], and none when
    it answers [false]. *)
Theorem Router_walk_one_callback (hs : list Handler) (nav : nat)
    (p : jsstring) (σ : Store) :
  Router_walk hs nav p σ = Router_walk hs nav p empty_store
  ∧ ∃ handled observed,
      Router_walk hs nav p σ = Some (handled, observed)
      ∧ if handled then ∃ callback props, observed = [(callback, nav, props)]
        else observed = [].
Proof.
  rewrite !Router_walk_dispatch. split; [done|].
  destruct (Router_dispatch hs p) as [[cb ps]|]; cbn.
  - exists true, [(cb, nav, ps)]. split; [done|]. by exists cb, ps.
  - by exists false, [].
Qed.

(** ** Slashes and nested patterns *)

Lemma split_all_no_sep (sep : N) (s : jsstring) :
  Forall (λ piece, sep ∉ piece) (split_all sep s).
Proof.
  induction s as [|c s IH]; cbn.
  - repeat constructor. apply not_elem_of_nil.
  - destruct (N.eqb_spec c sep) as [->|Hne].
    + constructor; [apply not_elem_of_nil | done].
    + destruct (split_all sep s) as [|w ws]; [repeat constructor|].
      * by intros [?|?%elem_of_nil]%elem_of_cons.
      * apply Forall_cons in IH as [Hw Hws]. constructor; [|done].
        by intros [?|?]%elem_of_cons.
Qed.

Lemma path_components_leading_slash (p : jsstring) :
  path_components (ch "/" :: p) = path_components p.
Proof.
  unfold path_components, split. cbn [split_all]. rewrite N.eqb_refl.
  by rewrite filter_cons_False by (by intros []).
Qed.

(** X3: the segments of a path are never empty and never contain a slash,
    and routing does not see leading, trailing or doubled slashes:
    [Router.route] runs identically on the path with and without them. *)
Theorem slashes_do_not_matter (hs : list Handler) (nav : nat)
    (p x y : jsstring) (σ : Store) :
  Forall (λ component, component ≠ [] ∧ ch "/" ∉ component) (path_components p)
  ∧ Router_route hs nav (p ++ js "/") σ = Router_route hs nav p σ
  ∧ Router_route hs nav (js "/" ++ p) σ = Router_route hs nav p σ
  ∧ Router_route hs nav (x ++ js "//" ++ y) σ
    = Router_route hs nav (x ++ js "/" ++ y) σ.
Proof.
  split_and!.
  - unfold path_components, split. apply Forall_forall.
    intros c [Hlen Hin]%list_elem_of_filter. split.
    + by destruct c.
    + pose proof (split_all_no_sep (ch "/") p) as Hall.
      rewrite Forall_forall in Hall. by apply Hall.
  - unfold Router_route. by rewrite path_components_trailing_slash.
  - unfold Router_route. change (js "/" ++ p) with (ch "/" :: p).
    by rewrite path_components_leading_slash.
  - unfold Router_route.
    change (x ++ js "//" ++ y) with (x ++ ch "/" :: (ch "/" :: y)).
    change (x ++ js "/" ++ y) with (x ++ ch "/" :: y).
    by rewrite !path_components_app, path_components_leading_slash.
Qed.

Lemma dispatch_path_app (pc1 pc2 : list jsstring) (next : Handler)
    (props : object) (segments : list jsstring) :
  dispatch (PathHandler (pc1 ++ pc2) next) props segments =
    dispatch (PathHandler pc1 (Subrouter [PathHandler pc2 next])) props segments.
Proof.
  cbn [dispatch]. rewrite first_some_cons. cbn [dispatch first_some omap list_omap head].
  destruct (decide (take (length pc1) segments = pc1)) as [H1|H1].
  - apply take_prefix_iff in H1 as [rest ->]. rewrite drop_app_length.
    destruct (decide (take (length pc2) rest = pc2)) as [H2|H2].
    + apply take_prefix_iff in H2 as [rest' ->].
      rewrite decide_True by (by rewrite app_assoc, take_app_length).
      rewrite drop_app_length, app_assoc, drop_app_length.
      by destruct (dispatch next props rest').
    + rewrite decide_False; [done|].
      intros [rest' Heq]%take_prefix_iff. rewrite <- app_assoc in Heq.
      apply app_inv_head in Heq as ->. destruct H2. by rewrite take_app_length.
  - rewrite decide_False; [done|].
    intros [rest' Heq]%take_prefix_iff. destruct H1. rewrite Heq, <- app_assoc.
    by rewrite take_app_length.
Qed.

(** X4: [r.path(x + '/' + y)] and [r.path(x).path(y)] route alike: with the
    same entries below, both routers answer the same and invoke the same
    callback with the same parameters on every path. *)
Theorem path_of_path (x y : jsstring) (sub hs : list Handler) (nav : nat)
    (p : jsstring) (σ : Store) :
  Router_walk (BaseRouter_path (x ++ js "/" ++ y) sub hs) nav p σ
  = Router_walk (BaseRouter_path x (BaseRouter_path y sub []) hs) nav p σ.
Proof.
  rewrite !Router_walk_dispatch. f_equal.
  unfold Router_dispatch, BaseRouter_path, PathHandler_new.
  rewrite !first_some_app. destruct (first_some _ hs); [done|].
  rewrite !first_some_cons.
  change (x ++ js "/" ++ y) with (x ++ ch "/" :: y).
  rewrite path_components_app. cbn [app]. by rewrite dispatch_path_app.
Qed.

Lemma dispatch_empty_path (sub : list Handler) (props : object)
    (segments : list jsstring) :
  dispatch (PathHandler [] (Subrouter sub)) props segments
  = first_some (λ handler, dispatch handler props segments) sub.
Proof. cbn [dispatch]. by rewrite decide_True by done. Qed.

(** X5: a pattern without segments (the empty string, or slashes only)
    matches everything and consumes nothing: the entries registered below
    [path(x)] behave as if registered in its place. *)
Theorem empty_path_is_transparent (x : jsstring) (sub hs : list Handler)
    (nav : nat) (p : jsstring) (σ : Store) :
  path_components x = [] →
  Router_walk (BaseRouter_path x sub hs) nav p σ = Router_walk (hs ++ sub) nav p σ.
Proof.
  intros Hx. rewrite !Router_walk_dispatch. f_equal.
  unfold Router_dispatch, BaseRouter_path, PathHandler_new.
  rewrite !first_some_app, Hx. destruct (first_some _ hs); [done|].
  by rewrite first_some_cons, dispatch_empty_path; destruct (first_some _ sub).
Qed.

Lemma empty_path_is_transparent_witness :
  Router_walk (BaseRouter_path (js "//") [CallbackHandler_new 0 no_options] [])
              0 (js "/") empty_store
  = Router_walk ([] ++ [CallbackHandler_new 0 no_options]) 0 (js "/") empty_store.
Proof. apply empty_path_is_transparent. reflexivity. Defined.

(** ** The order of the entries *)



Lemma first_handled_sure (attempt : M bool) (later : list (M bool)) σ :
  (∀ σ' , attempt σ ≠ Some (false, σ')) →
  first_handled (attempt :: later) σ = first_handled [attempt] σ.
Proof.
  intros Hsure. rewrite !first_handled_cons.
  destruct (attempt σ) as [[[] σ']|]; [done| |done]. by destruct (Hsure σ').
Qed.

Lemma catch_all_sure (cb nav params subpath : nat) σ σ' :
  route (CallbackHandler_new cb (mkPartialOptions (Some true)))
        nav params subpath σ ≠ Some (false, σ').
Proof.
  cbn [route CallbackHandler_new]. rewrite bind_run.
  destruct (readArray subpath σ) as [[segments σ1]|]; [|done].
  cbn. rewrite bind_run. by destruct (invoke cb nav params σ1) as [[[] ?]|].
Qed.

(** X7: an entry registered with [ignoreAdditionalPath: true] directly on
    a router or subrouter answers [true] whenever it is reached, so every
    entry registered after it on the same router is dead: with or without
    them, the walk runs identically. *)
Theorem entries_after_catch_all (cb : nat) (pre post : list Handler)
    (nav params subpath : nat) (p : jsstring) (σ : Store) :
  let catch_all := CallbackHandler_new cb (mkPartialOptions (Some true)) in
  route (Subrouter (pre ++ catch_all :: post)) nav params subpath σ
    = route (Subrouter (pre ++ [catch_all])) nav params subpath σ
  ∧ Router_route (pre ++ catch_all :: post) nav p σ
    = Router_route (pre ++ [catch_all]) nav p σ.
Proof.
  intros catch_all. split.
  - cbn [route]. rewrite !fmap_app, !first_handled_app.
    destruct (first_handled _ σ) as [[[] σ1]|]; [done| |done].
    rewrite !fmap_cons. apply first_handled_sure. intros σ'. apply catch_all_sure.
  - unfold Router_route. rewrite !bind_newArray, !fmap_app, !first_handled_app.
    destruct (first_handled _ _) as [[[] σ1]|]; [done| |done].
    rewrite !fmap_cons. apply first_handled_sure. intros σ'.
    unfold Router_attempt. rewrite bind_newObject. apply catch_all_sure.
Qed.

Lemma needs_segment_dispatch (h : Handler) (props : object) :
  needs_segment h → dispatch h props [] = None.
Proof. destruct h as [[|c pc] next| | | |]; done. Qed.

(** X8: a multi-parameter matcher hands an empty segment list on, so below
    it only callbacks (and patterns without segments) can match: when every
    entry below needs a segment, the matcher never handles anything and
    invokes no callback. *)
Theorem nothing_matches_below_multiparam (key : jsstring) (validator : Validator)
    (entries : list Handler) (nav params subpath : nat) (σ : Store)
    (props : object) (segments : list jsstring) :
  Forall needs_segment entries →
  objects σ !! params = Some props →
  arrays σ !! subpath = Some segments →
  walk (MultiParamHandler key validator (Subrouter entries)) nav params subpath σ
  = Some (false, []).
Proof.
  intros Hall Hp Hs. rewrite (walk_dispatch _ _ _ _ _ _ _ Hp Hs).
  replace (dispatch _ props segments) with (@None (nat * object)); [done|].
  cbn [dispatch]. destruct segments as [|segment rest]; [done|].
  destruct (conformsTo _ _) as [v|]; [|done].
  cbn [dispatch]. induction Hall as [|h hs Hh _ IH]; [done|].
  by rewrite first_some_cons, needs_segment_dispatch.
Qed.

Lemma nothing_matches_below_multiparam_witness :
  walk (MultiParamHandler (js "segments") {[ js "segments" := λ v, Success v ]}
          (Subrouter [PathHandler [js "x"] (Subrouter [])]))
       0 0 0 (with_array [js "a"; js "x"] (with_object ∅ empty_store))
  = Some (false, []).
Proof.
  apply (nothing_matches_below_multiparam _ _ _ 0 0 0 _ ∅ [js "a"; js "x"]);
    [by repeat constructor | reflexivity | reflexivity].
Defined.

(** ** The parameters a callback receives *)

Lemma dispatch_dom (h : Handler) (props : object) (segments : list jsstring)
    (cb : nat) (ps : object) :
  dispatch h props segments = Some (cb, ps) → dom props ⊆ dom ps.
Proof.
  revert props segments.
  induction h as [pathComponents next IH | key validator next IH
                 | key validator next IH | handlers IH | callback options]
    using Handler_tree_ind; intros props segments; cbn [dispatch].
  - case_decide; [apply IH | done].
  - destruct segments as [|segment rest]; [done|].
    destruct (conformsTo _ _) as [v|]; [|done].
    intros Hd%IH. rewrite dom_union in Hd. set_solver.
  - destruct segments as [|segment rest]; [done|].
    destruct (conformsTo _ _) as [v|]; [|done].
    intros Hd%IH. rewrite dom_union in Hd. set_solver.
  - induction IH as [|h hs Hh _ IHl]; [done|].
    rewrite first_some_cons.
    destruct (dispatch h props segments) as [[cb' ps']|] eqn:Hdh; [|done].
    intros [= -> ->]. by eapply Hh.
  - destruct (_ || _); [|done]. by intros [= _ ->].
Qed.

(** X9: parameters are never lost on the way down: the callback a walk
    invokes is given the Navigation being routed and an object that has
    every field of the parameter object the walk started with. *)
Theorem callback_sees_accumulator (h : Handler) (nav params subpath : nat)
    (σ : Store) (props : object) (segments : list jsstring)
    (handled : bool) (observed : list (nat * nat * object)) :
  objects σ !! params = Some props →
  arrays σ !! subpath = Some segments →
  walk h nav params subpath σ = Some (handled, observed) →
  Forall (λ c, c.1.2 = nav ∧ dom props ⊆ dom c.2) observed.
Proof.
  intros Hp Hs. rewrite (walk_dispatch _ _ _ _ _ _ _ Hp Hs).
  destruct (dispatch h props segments) as [[cb ps]|] eqn:Hd; intros [= <- <-];
    repeat constructor. by eapply dispatch_dom.
Qed.

Lemma callback_sees_accumulator_witness :
  ∃ observed,
    walk (ParamHandler (js "id") idValidator (CallbackHandler 7 (mkOptions false)))
         0 0 0
         (with_array [js "42"]
            (with_object {[ js "k" := VString (js "v") ]} empty_store))
    = Some (true, observed)
    ∧ Forall (λ c, c.1.2 = 0 ∧ dom ({[ js "k" := VString (js "v") ]} : object) ⊆ dom c.2)
             observed.
Proof.
  eexists. split; [by vm_compute|].
  apply (callback_sees_accumulator
           (ParamHandler (js "id") idValidator (CallbackHandler 7 (mkOptions false)))
           0 0 0
           (with_array [js "42"]
              (with_object {[ js "k" := VString (js "v") ]} empty_store))
           {[ js "k" := VString (js "v") ]} [js "42"] true);
    [reflexivity | reflexivity | by vm_compute].
Defined.

Lemma conformsTo_dom (validator : Validator) (obj v : object) :
  conformsTo validator obj = Success v → dom v = dom validator.
Proof.
  unfold conformsTo. case_bool_decide as Hall; [|done]. intros [= <-].
  apply set_eq. intros k. rewrite !elem_of_dom, lookup_omap.
  destruct (map_imap _ validator !! k) as [r|] eqn:Hr.
  - pose proof (Hall k r Hr) as Hs. cbn in Hs.
    rewrite map_lookup_imap in Hr. destruct (validator !! k) as [f|]; [|done].
    destruct r; [|done]. cbn. split; eauto.
  - rewrite map_lookup_imap in Hr. destruct (validator !! k) as [f|]; [done|].
    cbn. split; by intros [? ?].
Qed.

Lemma union_agree (v props props' : object) :
  (∀ k, k ∉ dom v → props !! k = props' !! k) → v ∪ props = v ∪ props'.
Proof.
  intros Hagree. apply map_eq. intros k. rewrite !lookup_union.
  destruct (v !! k) as [x|] eqn:Hk.
  - by destruct (props !! k), (props' !! k).
  - rewrite Hagree; [done|]. by apply not_elem_of_dom.
Qed.

(** X10: a parameter matcher overrides what it inherits: the fields its
    validator binds are taken from the validated segment, so two walks whose
    inherited parameters differ in those fields only answer the same and
    invoke the same callback with the same parameters. *)
Theorem matcher_overrides_inherited (h : Handler) (key : jsstring)
    (validator : Validator) (next : Handler) (nav : nat)
    (params1 subpath1 params2 subpath2 : nat) (σ1 σ2 : Store)
    (props1 props2 : object) (segments : list jsstring) :
  h = ParamHandler key validator next ∨ h = MultiParamHandler key validator next →
  (∀ k, k ∉ dom validator → props1 !! k = props2 !! k) →
  objects σ1 !! params1 = Some props1 → arrays σ1 !! subpath1 = Some segments →
  objects σ2 !! params2 = Some props2 → arrays σ2 !! subpath2 = Some segments →
  walk h nav params1 subpath1 σ1 = walk h nav params2 subpath2 σ2.
Proof.
  intros Hh Hagree Hp1 Hs1 Hp2 Hs2.
  rewrite (walk_dispatch _ _ _ _ _ _ _ Hp1 Hs1), (walk_dispatch _ _ _ _ _ _ _ Hp2 Hs2).
  f_equal. destruct Hh as [-> | ->]; cbn [dispatch];
    (destruct segments as [|segment rest]; [done|]);
    (destruct (conformsTo validator _) as [v|] eqn:Hv; [|done]);
    apply conformsTo_dom in Hv; rewrite <- Hv in Hagree;
    by rewrite (union_agree v props1 props2 Hagree).
Qed.

Lemma matcher_overrides_inherited_witness :
  walk (ParamHandler (js "id") idValidator (CallbackHandler 7 (mkOptions false)))
       0 0 0
       (with_array [js "42"]
          (with_object {[ js "id" := VString (js "inherited") ]} empty_store))
  = walk (ParamHandler (js "id") idValidator (CallbackHandler 7 (mkOptions false)))
       0 0 0 (with_array [js "42"] (with_object ∅ empty_store)).
Proof.
  apply (matcher_overrides_inherited _ (js "id") idValidator
           (CallbackHandler 7 (mkOptions false)) 0 0 0 0 0 _ _
           {[ js "id" := VString (js "inherited") ]} ∅ [js "42"]);
    [by left | | reflexivity..].
  intros k Hk. unfold idValidator in Hk. rewrite dom_singleton_L in Hk.
  rewrite lookup_empty. apply lookup_singleton_None. set_solver.
Defined.

(** ** When [createFromUrl] throws, and the path it keeps *)

(** [Encode] throws nothing but [URIError], and only on a string that
    holds a surrogate code unit. *)
Lemma Encode_throws (unescaped : N → bool) (s : jsstring) (x : exn) :
  Encode unescaped s = Throw x →
  x = URIError ∧ Exists (λ c, is_surrogate c = true) s.
Proof.
  remember (length s) as n eqn:Hn. revert s Hn.
  induction n as [n IH] using lt_wf_ind. intros [|c s] -> Hs; [done|].
  cbn [Encode] in Hs. destruct (unescaped c).
  { destruct (Encode unescaped s) as [r|y] eqn:Hr; [done|].
    injection Hs as ->. destruct (IH (length s) ltac:(simpl; lia) s eq_refl Hr).
    split; [done|]. by apply Exists_cons_tl. }
  destruct (is_low_surrogate c) eqn:Hlow.
  { injection Hs as <-. split; [done|]. apply Exists_cons_hd.
    unfold is_low_surrogate, is_surrogate in *.
    rewrite in_range_spec in *. lia. }
  destruct (is_high_surrogate c) eqn:Hhigh.
  { assert (is_surrogate c = true) as Hc
      by (unfold is_high_surrogate, is_surrogate in *;
          rewrite in_range_spec in *; lia).
    destruct s as [|d s].
    { injection Hs as <-. split; [done|]. by apply Exists_cons_hd. }
    destruct (is_low_surrogate d).
    - destruct (Encode unescaped s) as [r|y] eqn:Hr; [done|].
      injection Hs as ->. split; [|by apply Exists_cons_hd].
      by destruct (IH (length s) ltac:(simpl; lia) s eq_refl Hr).
    - injection Hs as <-. split; [done|]. by apply Exists_cons_hd. }
  destruct (Encode unescaped s) as [r|y] eqn:Hr; [done|].
  injection Hs as ->. destruct (IH (length s) ltac:(simpl; lia) s eq_refl Hr).
  split; [done|]. by apply Exists_cons_tl.
Qed.

Lemma createFromUrl_throws_encodeURI (u : jsstring) (x : exn) :
  wf_jsstring u → createFromUrl u = Throw x → encodeURI u = Throw x.
Proof.
  intros Hwf Hx. destruct (encodeURI u) as [e|y] eqn:He.
  - rewrite (createFromUrl_raw u e Hwf He) in Hx. done.
  - unfold createFromUrl in Hx. rewrite He in Hx. cbn [mbind completion_bind] in Hx. congruence.
Qed.

Lemma before_prefix (sep : N) (s : jsstring) : before sep s `prefix_of` s.
Proof.
  induction s as [|c s IH]; [done|]. simpl.
  destruct (c =? sep)%N; [apply prefix_nil | by apply prefix_cons].
Qed.

(** X11: [createFromUrl] throws nothing but [URIError], and only when the
    URL holds a surrogate code unit: the exception comes from [encodeURI],
    never from decoding the keys and values of the query. *)
Theorem createFromUrl_throws_only_for_surrogates (u : jsstring) (x : exn) :
  wf_jsstring u → createFromUrl u = Throw x →
  x = URIError ∧ Exists (λ c, is_surrogate c = true) u.
Proof.
  intros Hwf Hx%createFromUrl_throws_encodeURI; [|done].
  by apply Encode_throws in Hx.
Qed.

Lemma createFromUrl_throws_only_for_surrogates_witness :
  wf_jsstring [0xD800%N] ∧ createFromUrl [0xD800%N] = Throw URIError
  ∧ URIError = URIError ∧ Exists (λ c, is_surrogate c = true) [0xD800%N].
Proof.
  assert (wf_jsstring [0xD800%N]) as Hwf by (repeat constructor).
  assert (createFromUrl [0xD800%N] = Throw URIError) as Hx by reflexivity.
  split; [done|]. split; [done|].
  exact (createFromUrl_throws_only_for_surrogates _ _ Hwf Hx).
Defined.

(** X12: the Navigation [createFromUrl] returns has the encoded URL as its
    [url]; its [path] is that URL up to its first ['?'], so a prefix of the
    URL without a ['?']; and it is not cancelled. *)
Theorem createFromUrl_path (u : jsstring) (nav : Navigation) :
  createFromUrl u = Normal nav →
  encodeURI u = Normal (url nav)
  ∧ path nav = before (ch "?") (url nav)
  ∧ (ch "?" ∉ path nav)
  ∧ (path nav `prefix_of` url nav)
  ∧ cancelled nav = false.
Proof.
  intros Hnav. pose proof (createFromUrl_url u nav Hnav) as He.
  rewrite createFromUrl_described in Hnav. unfold described_createFromUrl in Hnav.
  rewrite He in Hnav. cbn [mbind completion_bind] in Hnav.
  assert (path nav = before (ch "?") (url nav) ∧ cancelled nav = false) as [Hp Hc].
  { case_bool_decide as Hq.
    - destruct (decoded_pairs _ _) as [kvs|]; [|done].
      cbn [mbind completion_bind] in Hnav. by injection Hnav as <-.
    - injection Hnav as <-. cbn. by rewrite before_not_elem_of. }
  split_and!; [done..| | |done].
  - rewrite Hp. apply before_no_sep.
  - rewrite Hp. apply before_prefix.
Qed.

Lemma createFromUrl_path_witness :
  ∃ nav, createFromUrl (js "/p q?a=1") = Normal nav
    ∧ encodeURI (js "/p q?a=1") = Normal (url nav)
    ∧ path nav = before (ch "?") (url nav)
    ∧ (ch "?" ∉ path nav)
    ∧ (path nav `prefix_of` url nav)
    ∧ cancelled nav = false.
Proof.
  eexists. split; [by vm_compute|].
  apply (createFromUrl_path (js "/p q?a=1")). by vm_compute.
Defined.

(** ** Invariants of the sequencer *)

Lemma set_cancelled_length (pending : nat) (l : list Navigation) :
  length (set_cancelled pending l) = length l.
Proof. unfold set_cancelled. apply length_alter. Qed.

(** The first part of [navigate] commits nothing and drops no
    Navigation. *)
Lemma navigate_start_frame (arg : NavigateArg) (r r' : Router) (st : Started) :
  navigate_start arg r = Some (st, r') →
  handlers r' = handlers r
  ∧ _currentNav r' = _currentNav r
  ∧ navigated r' = navigated r
  ∧ setUrl_calls r' = setUrl_calls r
  ∧ length (navs r) ≤ length (navs r').
Proof.
  unfold navigate_start. case_bool_decide.
  { intros [= <- <-]. by split_and!. }
  set (navs1 := match nextNav r with
                | Some pending => set_cancelled pending (navs r)
                | None => navs r
                end).
  assert (length navs1 = length (navs r)) as Hlen.
  { subst navs1. destruct (nextNav r); [apply set_cancelled_length | done]. }
  destruct arg as [u|k].
  - destruct (createFromUrl u) as [created|e].
    + destruct ((navs1 ++ [created]) !! length navs1); [|done].
      cbn [mbind option_bind].
      destruct (Router_route _ _ _ _) as [[handled σ']|]; [|done].
      intros [= <- <-]. cbn. rewrite length_app. split_and!; [done..|lia].
    + intros [= <- <-]. cbn. split_and!; [done..|lia].
  - destruct (navs1 !! k); [|done]. cbn [mbind option_bind].
    destruct (Router_route _ _ _ _) as [[handled σ']|]; [|done].
    intros [= <- <-]. cbn. split_and!; [done..|lia].
Qed.

Lemma step_history_consistent (e : Event) (m m' : Machine) :
  pending_valid m → history_consistent (router m) →
  step e m = Some m' → history_consistent (router m').
Proof.
  intros Hvalid (Heq & Hcur & Hall) Hstep. destruct e as [arg|i]; cbn [step] in Hstep.
  - destruct (navigate_start arg (router m)) as [[st r']|] eqn:Hstart; [|done].
    injection Hstep as <-. cbn.
    destruct (navigate_start_frame _ _ _ _ Hstart) as (_ & Hc & Hn & Hs & Hlen).
    unfold history_consistent, currentNav. rewrite Hc, Hn, Hs.
    split_and!; [done..|]. eapply Forall_impl; [done|]. cbn. lia.
  - destruct (tasks m !! i) as [[n handled| |]|] eqn:Hi; try done.
    destruct (Hvalid _ _ _ Hi) as [nav Hn].
    destruct (navigate_resume_spec n handled _ _ Hn)
      as (r' & Hres & _ & Hnavs & _ & Hcommit).
    rewrite Hres in Hstep. injection Hstep as <-. cbn.
    unfold history_consistent. rewrite Hnavs.
    destruct (handled && negb (cancelled nav)).
    + destruct Hcommit as (-> & -> & ->). rewrite Heq, last_snoc.
      split_and!; [done..|]. apply Forall_app. rewrite <- Heq. split; [done|].
      repeat constructor. by eapply lookup_lt_Some.
    + destruct Hcommit as (-> & -> & ->). by split_and!.
Qed.

(** X13: in every state the router can be brought to, the Navigations
    announced on [navigatedEvent] are, in order, the ones handed to
    [setUrl]; [currentNav] is the last one announced ([null] when none was);
    and all of them are live Navigation objects. *)
Theorem committed_history_consistent (hs : list Handler)
    (schedule : list Event) (m : Machine) :
  run schedule (boot hs) = Some m →
  navigated (router m) = setUrl_calls (router m)
  ∧ currentNav (router m) = last (navigated (router m))
  ∧ Forall (λ n, n < length (navs (router m))) (navigated (router m)).
Proof.
  intros Hrun. change (history_consistent (router m)).
  assert (pending_valid (boot hs) ∧ history_consistent (router (boot hs)))
    as [Hvalid Hcons].
  { split; [apply boot_pending_valid|]. by split_and!. }
  revert Hrun Hvalid Hcons. generalize (boot hs). revert m.
  induction schedule as [|e rest IH]; intros m m0 Hrun Hvalid Hcons.
  { by injection Hrun as <-. }
  cbn [run] in Hrun. destruct (step e m0) as [m1|] eqn:Hstep; [|done].
  eapply IH; [done | by eapply step_pending_valid | by eapply step_history_consistent].
Qed.

Lemma committed_history_consistent_witness :
  ∃ m, run [Navigate (Url (js "/a/b")); WalkCompletes 0;
            Navigate (Url (js "/a/b?x")); WalkCompletes 1]
           (boot (literal_router 0 no_options)) = Some m
    ∧ navigated (router m) = [0; 1]
    ∧ setUrl_calls (router m) = [0; 1]
    ∧ currentNav (router m) = Some 1.
Proof.
  eexists. split; [by vm_compute|].
  match goal with
  | |- context [router ?m] =>
      assert (run [Navigate (Url (js "/a/b")); WalkCompletes 0;
                   Navigate (Url (js "/a/b?x")); WalkCompletes 1]
                  (boot (literal_router 0 no_options)) = Some m) as Hrun
        by (by vm_compute);
      destruct (committed_history_consistent _ _ _ Hrun) as (Heq & Hcur & _);
      assert (navigated (router m) = [0; 1]) as Hnav by (by vm_compute)
  end.
  split; [exact Hnav|]. split; [by rewrite <- Heq|]. by rewrite Hcur, Hnav.
Defined.

(** X14: a call of [navigate] with a well-formed URL on a router with
    entries, whose walk completes before any other call is made, resolves to
    the answer of [Router.route] on the new Navigation's path and clears the
    pending marker; the new Navigation becomes current and is announced
    exactly when that answer is [true], whatever was pending before. *)
Theorem uninterrupted_navigation_commits_iff_handled (u : jsstring)
    (nav : Navigation) (m : Machine) (n : nat) :
  handlers (router m) ≠ [] →
  createFromUrl u = Normal nav →
  n = length (navs (router m)) →
  ∃ handled σ' m',
    Router_route (handlers (router m)) n (path nav) (store (router m))
      = Some (handled, σ')
    ∧ run [Navigate (Url u); WalkCompletes (length (tasks m))] m = Some m'
    ∧ tasks m' = tasks m ++ [Resolved handled]
    ∧ nextNav (router m') = None
    ∧ navs (router m') !! n = Some nav
    ∧ store (router m') = σ'
    ∧ if handled
      then currentNav (router m') = Some n
           ∧ navigated (router m') = navigated (router m) ++ [n]
      else currentNav (router m') = currentNav (router m)
           ∧ navigated (router m') = navigated (router m).
Proof.
  intros Hhs Hnav Hn0.
  set (navs1 := match nextNav (router m) with
                | Some pending => set_cancelled pending (navs (router m))
                | None => navs (router m)
                end).
  assert (length navs1 = n) as Hlen.
  { subst navs1 n. destruct (nextNav (router m)); [apply set_cancelled_length | done]. }
  clear Hn0.
  destruct (Router_route_defined (handlers (router m)) n (path nav) (store (router m)))
    as (handled & σ' & Hroute).
  assert (cancelled nav = false) as Hfresh.
  { rewrite createFromUrl_described in Hnav. unfold described_createFromUrl in Hnav.
    destruct (encodeURI u) as [e|]; [|done]. cbn [mbind completion_bind] in Hnav.
    case_bool_decide.
    - destruct (decoded_pairs _ _); [|done]. by injection Hnav as <-.
    - by injection Hnav as <-. }
  assert ((navs1 ++ [nav]) !! n = Some nav) as Hn.
  { subst n. by rewrite lookup_app_r, Nat.sub_diag. }
  exists handled, σ'.
  assert (∀ r' : Router,
            navs r' = navs1 ++ [nav] →
            ∃ r'', navigate_resume n handled r' = Some (handled, r'')
              ∧ nextNav r'' = None ∧ navs r'' = navs r' ∧ store r'' = store r'
              ∧ if handled
                then currentNav r'' = Some n ∧ navigated r'' = navigated r' ++ [n]
                else currentNav r'' = currentNav r' ∧ navigated r'' = navigated r')
    as Hresume.
  { intros r' Hnavs. rewrite <- Hnavs in Hn. unfold navigate_resume.
    rewrite Hn. cbn [mbind option_bind]. rewrite Hfresh, andb_true_r.
    destruct handled; eexists; by split_and!. }
  cbn [run step mbind option_bind]. unfold navigate_start.
  rewrite bool_decide_eq_false_2 by (by destruct (handlers (router m))).
  rewrite Hnav. fold navs1. rewrite Hlen, Hn. cbn [mbind option_bind].
  rewrite Hroute. cbn [mbind option_bind tasks router].
  rewrite lookup_app_r, Nat.sub_diag by done. cbn [lookup list_lookup].
  destruct (Hresume (mkRouter (handlers (router m)) (navs1 ++ [nav])
                       (_currentNav (router m)) (Some n) (navigated (router m))
                       (setUrl_calls (router m)) σ') eq_refl)
    as (r'' & -> & Hnext & Hnavs & Hstore & Hcommit).
  cbn [mbind option_bind]. eexists. split; [done|]. split; [done|].
  cbn [tasks router]. rewrite insert_app_r_alt, Nat.sub_diag by done.
  cbn [insert list_insert]. rewrite Hnavs. by split_and!.
Qed.

Lemma uninterrupted_navigation_commits_iff_handled_witness :
  handlers (router (boot (literal_router 0 no_options))) ≠ []
  ∧ ∃ nav, createFromUrl (js "/a/b") = Normal nav
    ∧ ∃ handled σ' m',
        Router_route (literal_router 0 no_options) 0 (path nav) empty_store
          = Some (handled, σ')
        ∧ run [Navigate (Url (js "/a/b")); WalkCompletes 0]
              (boot (literal_router 0 no_options)) = Some m'
        ∧ tasks m' = [Resolved handled]
        ∧ nextNav (router m') = None
        ∧ navs (router m') !! 0 = Some nav
        ∧ store (router m') = σ'
        ∧ if handled
          then currentNav (router m') = Some 0 ∧ navigated (router m') = [0]
          else currentNav (router m') = None ∧ navigated (router m') = [].
Proof.
  split; [done|]. eexists. split; [by vm_compute|].
  apply (uninterrupted_navigation_commits_iff_handled (js "/a/b") _
           (boot (literal_router 0 no_options)) 0); [done | by vm_compute | done].
Defined.

(** X15: a call of [navigate] that is rejected because [createFromUrl]
    throws has already cancelled the pending Navigation: that one is marked
    cancelled and stays the pending one, no walk is started, and nothing is
    committed. *)
Theorem rejected_navigate_still_cancels (u : jsstring) (e : exn) (m : Machine)
    (a : nat) (nav_a : Navigation) :
  handlers (router m) ≠ [] →
  nextNav (router m) = Some a →
  navs (router m) !! a = Some nav_a →
  createFromUrl u = Throw e →
  ∃ m', step (Navigate (Url u)) m = Some m'
    ∧ tasks m' = tasks m ++ [Failed e]
    ∧ (cancelled <$> navs (router m') !! a) = Some true
    ∧ nextNav (router m') = Some a
    ∧ store (router m') = store (router m)
    ∧ currentNav (router m') = currentNav (router m).
Proof.
  intros Hhs Hnext Ha Hu. cbn [step]. unfold navigate_start.
  rewrite bool_decide_eq_false_2 by (by destruct (handlers (router m))).
  rewrite Hu, Hnext. cbn [mbind option_bind]. eexists. split; [done|].
  cbn. split_and!; [done| |done..].
  destruct (set_cancelled_lookup a a _ _ Ha) as (nav' & -> & Hc & _).
  cbn. f_equal. apply Hc. by left.
Qed.

Lemma rejected_navigate_still_cancels_witness :
  ∃ m m',
    run [Navigate (Url (js "/a/b"))] (boot (literal_router 0 no_options)) = Some m
    ∧ step (Navigate (Url [0xD800%N])) m = Some m'
    ∧ tasks m' = tasks m ++ [Failed URIError]
    ∧ (cancelled <$> navs (router m') !! 0) = Some true
    ∧ nextNav (router m') = Some 0
    ∧ store (router m') = store (router m)
    ∧ currentNav (router m') = currentNav (router m).
Proof.
  eexists. 
  match goal with
  | |- ∃ m', run ?s ?b = Some ?m ∧ _ =>
      assert (run s b = Some m) as Hrun by (by vm_compute)
  end.
  match type of Hrun with
  | _ = Some ?m =>
      assert (∃ nav_a, navs (router m) !! 0 = Some nav_a) as [nav_a Ha]
        by (eexists; by vm_compute);
      destruct (rejected_navigate_still_cancels [0xD800%N] URIError m 0 nav_a)
        as (m' & Hm'); [done | done | exact Ha | done |];
      exists m'; split; [exact Hrun | exact Hm']
  end.
Defined.

(** X16: [cancelled] is never reset.  A Navigation that is cancelled stays
    cancelled whatever calls and completions follow, and whenever a walk for
    it completes, also one started by handing the same object to [navigate]
    again, the call resolves to the answer of the walk and nothing is
    committed. *)
Theorem cancelled_navigation_never_commits (schedule : list Event)
    (m m2 m3 : Machine) (n i : nat) (nav : Navigation) (handled : bool) :
  navs (router m) !! n = Some nav →
  cancelled nav = true →
  run schedule m = Some m2 →
  tasks m2 !! i = Some (Pending n handled) →
  step (WalkCompletes i) m2 = Some m3 →
  (cancelled <$> navs (router m3) !! n) = Some true
  ∧ tasks m3 !! i = Some (Resolved handled)
  ∧ currentNav (router m3) = currentNav (router m2)
  ∧ navigated (router m3) = navigated (router m2)
  ∧ setUrl_calls (router m3) = setUrl_calls (router m2).
Proof.
  intros Hn Hc Hrun Htask Hdone.
  destruct (run_cancelled_persists _ _ _ _ _ Hrun Hn Hc) as (nav2 & Hn2 & Hc2).
  cbn [step] in Hdone. rewrite Htask in Hdone.
  destruct (navigate_resume_spec n handled _ _ Hn2)
    as (r3 & Hres & _ & Hnavs & _ & Hcommit).
  rewrite Hres in Hdone. injection Hdone as <-. cbn.
  rewrite Hc2, andb_false_r in Hcommit. rewrite Hnavs, Hn2. cbn. rewrite Hc2.
  split; [done|]. split; [|done]. apply list_lookup_insert_eq. by eapply lookup_lt_Some.
Qed.

Lemma cancelled_navigation_never_commits_witness :
  ∃ m nav m2 m3,
    run [Navigate (Url (js "/a/b")); Navigate (Url (js "/a/b?x"));
         WalkCompletes 0; WalkCompletes 1]
        (boot (literal_router 0 no_options)) = Some m
    ∧ navs (router m) !! 0 = Some nav
    ∧ cancelled nav = true
    ∧ currentNav (router m) = Some 1
    ∧ run [Navigate (Nav 0)] m = Some m2
    ∧ tasks m2 !! 2 = Some (Pending 0 true)
    ∧ step (WalkCompletes 2) m2 = Some m3
    ∧ tasks m3 !! 2 = Some (Resolved true)
    ∧ currentNav (router m3) = Some 1.
Proof.
  assert (∃ m nav m2 m3,
    run [Navigate (Url (js "/a/b")); Navigate (Url (js "/a/b?x"));
         WalkCompletes 0; WalkCompletes 1]
        (boot (literal_router 0 no_options)) = Some m
    ∧ navs (router m) !! 0 = Some nav
    ∧ cancelled nav = true
    ∧ currentNav (router m) = Some 1
    ∧ run [Navigate (Nav 0)] m = Some m2
    ∧ tasks m2 !! 2 = Some (Pending 0 true)
    ∧ currentNav (router m2) = Some 1
    ∧ step (WalkCompletes 2) m2 = Some m3)
    as (m & nav & m2 & m3 & Hm & Hnav & Hc & Hcur & Hm2 & Htask & Hcur2 & Hm3).
  { eexists _, _, _, _. repeat (split; [by vm_compute|]). by vm_compute. }
  destruct (cancelled_navigation_never_commits _ _ _ _ _ _ _ _ Hnav Hc Hm2 Htask Hm3)
    as (_ & Hres & Hkeep & _).
  exists m, nav, m2, m3. split_and!; [done..|]. by rewrite Hkeep.
Defined.

Lemma recorded_pending_never_commits_witness :
  ∃ m m1 m3,
    run [Navigate (Url (js "/a/b"))] (boot (literal_router 0 no_options)) = Some m
    ∧ nextNav (router m) = Some 0
    ∧ step (Navigate (Url (js "/a/b?later"))) m = Some m1
    ∧ tasks m1 !! 0 = Some (Pending 0 true)
    ∧ step (WalkCompletes 0) m1 = Some m3
    ∧ tasks m3 !! 0 = Some (Resolved true)
    ∧ currentNav (router m3) = currentNav (router m1)
    ∧ navigated (router m3) = navigated (router m1)
    ∧ setUrl_calls (router m3) = setUrl_calls (router m1).
Proof.
  assert (∃ m m1 m3,
    run [Navigate (Url (js "/a/b"))] (boot (literal_router 0 no_options)) = Some m
    ∧ nextNav (router m) = Some 0
    ∧ is_Some (navs (router m) !! 0)
    ∧ handlers (router m) ≠ []
    ∧ step (Navigate (Url (js "/a/b?later"))) m = Some m1
    ∧ tasks m1 !! 0 = Some (Pending 0 true)
    ∧ step (WalkCompletes 0) m1 = Some m3)
    as (m & m1 & m3 & Hm & Hnext & Hsome & Hhs & Hm1 & Htask & Hm3).
  { eexists _, _, _. split_and!; try by vm_compute. by eexists. }
  exists m, m1, m3. split_and!; [done..| | | |];
    by destruct (recorded_pending_never_commits (Url (js "/a/b?later")) m m1 m1 m3
                [] 0 0 true Hnext Hsome Hhs Hm1 eq_refl Htask Hm3)
      as (? & ? & ? & ?).
Defined.

(** ** The history cookie *)

(** [join] then [split] gives the entries back when none holds the
    separator. *)
Lemma split_all_join (sep : N) (hist : list jsstring) :
  hist ≠ [] → Forall (λ entry, sep ∉ entry) hist →
  split_all sep (join [sep] hist) = hist.
Proof.
  intros Hne Hall. induction Hall as [|entry rest Hentry Hrest IH]; [done|].
  destruct rest as [|entry' rest].
  - cbn [join]. rewrite split_all_unfold, bool_decide_eq_false_2 by done.
    by rewrite before_not_elem_of.
  - change (join [sep] (entry :: entry' :: rest))
      with (entry ++ sep :: join [sep] (entry' :: rest)).
    rewrite split_all_app, IH by done.
    rewrite split_all_unfold, bool_decide_eq_false_2 by done.
    by rewrite before_not_elem_of.
Qed.

(** [split] then [join] always gives the string back. *)
Lemma join_split_all (sep : N) (s : jsstring) :
  join [sep] (split_all sep s) = s.
Proof.
  induction s as [|c s IH]; [done|]. cbn [split_all].
  destruct (c =? sep)%N eqn:Hc.
  - apply N.eqb_eq in Hc as ->. pose proof (split_all_nonempty sep s).
    destruct (split_all sep s) as [|w ws] eqn:Hs; [done|].
    cbn [join app]. by rewrite <- IH.
  - destruct (split_all sep s) as [|w ws] eqn:Hs.
    + by destruct (split_all_nonempty sep s).
    + rewrite <- IH. by destruct ws.
Qed.

Lemma getHistory_setHistory (hist : list jsstring) (b : Browser) :
  Forall (λ entry, ch "|" ∉ entry) hist →
  getHistory (setHistory hist b) = hist.
Proof.
  intros Hall. unfold setHistory, getHistory. case_bool_decide as Hlen; cbn.
  - by destruct hist.
  - apply (split_all_join (ch "|")); [by destruct hist | done].
Qed.

Lemma setHistory_getHistory (b b' : Browser) :
  setHistory (getHistory b) b' = mkBrowser (cookie b) (hrefs b').
Proof.
  unfold setHistory, getHistory. destruct (cookie b) as [histStr|]; cbn; [|done].
  rewrite bool_decide_eq_false_2.
  - by rewrite (join_split_all (ch "|")).
  - pose proof (split_all_nonempty (ch "|") histStr).
    by destruct (split_all _ _).
Qed.

Lemma hrefs_setHistory (hist : list jsstring) (b : Browser) :
  hrefs (setHistory hist b) = hrefs b.
Proof. unfold setHistory. by case_bool_decide. Qed.

Lemma getHistory_no_pipe (b : Browser) :
  Forall (λ entry, ch "|" ∉ entry) (getHistory b).
Proof.
  unfold getHistory. destruct (cookie b); [apply split_all_no_sep | done].
Qed.

Lemma split_all_join_pieces (sep : N) (hist : list jsstring) :
  hist ≠ [] →
  split_all sep (join [sep] hist) = mjoin (split_all sep <$> hist).
Proof.
  intros Hne. induction hist as [|entry rest IH]; [done|].
  destruct rest as [|entry' rest].
  - cbn. by rewrite app_nil_r.
  - change (join [sep] (entry :: entry' :: rest))
      with (entry ++ sep :: join [sep] (entry' :: rest)).
    by rewrite split_all_app, IH.
Qed.

Lemma setUrl_history (current : jsstring) (nav : Navigation) (b : Browser) :
  ch "|" ∉ current → current ≠ url nav →
  getHistory (FallbackBrowserApi_setUrl current nav b) = getHistory b ++ [current]
  ∧ hrefs (FallbackBrowserApi_setUrl current nav b) = hrefs b ++ [url nav].
Proof.
  intros Hcur Hne. unfold FallbackBrowserApi_setUrl.
  rewrite bool_decide_eq_true_2 by done. cbn zeta. split.
  - change (getHistory (set_href ?u ?b0)) with (getHistory b0).
    apply getHistory_setHistory. apply Forall_app.
    split; [apply getHistory_no_pipe | by repeat constructor].
  - cbn. by rewrite hrefs_setHistory.
Qed.

Lemma visits_history (visits : list (jsstring * Navigation)) (b : Browser) :
  Forall (λ v, (ch "|" ∉ v.1) ∧ v.1 ≠ url v.2) visits →
  getHistory (foldl visit b visits) = getHistory b ++ visits.*1
  ∧ hrefs (foldl visit b visits) = hrefs b ++ (url <$> visits.*2).
Proof.
  intros Hall. revert b. induction Hall as [|[current nav] visits [Hc Hne] _ IH];
    intros b; cbn [foldl fmap list_fmap].
  { by rewrite !app_nil_r. }
  destruct (IH (visit b (current, nav))) as [-> ->].
  change (visit b (current, nav)) with (FallbackBrowserApi_setUrl current nav b).
  destruct (setUrl_history current nav b Hc Hne) as [-> ->].
  by rewrite <- !app_assoc.
Qed.

(** As many calls of [back] as there are entries to drop drop them one by
    one, newest first. *)
Lemma back_unwinds (kept popped : list jsstring) (b : Browser) :
  getHistory b = kept ++ popped →
  Nat.iter (length popped) FallbackBrowserApi_back b
  = mkBrowser (cookie (setHistory kept b)) (hrefs b ++ reverse popped).
Proof.
  revert b. induction popped as [|entry popped IH] using rev_ind; intros b Hb.
  { cbn. rewrite app_nil_r in *. rewrite <- Hb, setHistory_getHistory.
    by destruct b. }
  rewrite length_app, Nat.add_1_r, Nat.iter_succ_r.
  assert (FallbackBrowserApi_back b
          = set_href entry (setHistory (kept ++ popped) b)) as ->.
  { unfold FallbackBrowserApi_back. cbn zeta.
    by rewrite Hb, app_assoc, last_snoc, removelast_last. }
  rewrite IH.
  - cbn [hrefs set_href]. rewrite hrefs_setHistory, reverse_app, <- app_assoc.
    f_equal. unfold setHistory. by repeat case_bool_decide.
  - change (getHistory (set_href ?u ?b0)) with (getHistory b0).
    apply getHistory_setHistory. pose proof (getHistory_no_pipe b) as Hall.
    rewrite Hb, app_assoc in Hall. by apply Forall_app in Hall as [? _].
Qed.

(** X18: the history cookie gives back what was stored: [getHistory]
    after [setHistory] returns the stored list whenever no entry holds
    ['|'] (the empty list included, for which the cookie is erased), and
    [setHistory] of what [getHistory] returns leaves the cookie as it
    was. *)
Theorem history_round_trip (hist : list jsstring) (b : Browser) :
  Forall (λ entry, ch "|" ∉ entry) hist →
  getHistory (setHistory hist b) = hist
  ∧ setHistory (getHistory b) b = b.
Proof.
  intros Hall. split; [by apply getHistory_setHistory|].
  rewrite setHistory_getHistory. by destruct b.
Qed.

Lemma history_round_trip_witness :
  getHistory (setHistory [js "/a"; js "/b?x=1"] (mkBrowser None [])) = [js "/a"; js "/b?x=1"]
  ∧ setHistory (getHistory (mkBrowser None [])) (mkBrowser None []) = mkBrowser None [].
Proof.
  apply history_round_trip. apply (bool_decide_unpack _). by vm_compute.
Defined.

(** X19: the cookie history is a stack.  After any number of [setUrl]
    calls that each leave a path without ['|'] for a different URL, the same
    number of [back] calls sends the browser to the paths left, newest
    first, and ends with the cookie exactly as it was before. *)
Theorem history_is_a_stack (visits : list (jsstring * Navigation)) (b : Browser) :
  Forall (λ v, (ch "|" ∉ v.1) ∧ v.1 ≠ url v.2) visits →
  Nat.iter (length visits) FallbackBrowserApi_back (foldl visit b visits)
  = mkBrowser (cookie b)
              (hrefs b ++ (url <$> visits.*2) ++ reverse visits.*1).
Proof.
  intros Hall. destruct (visits_history visits b Hall) as [Hhist Hhrefs].
  replace (length visits) with (length visits.*1) by apply length_fmap.
  rewrite (back_unwinds (getHistory b) _ _ Hhist), Hhrefs, <- app_assoc.
  by rewrite setHistory_getHistory.
Qed.

Lemma history_is_a_stack_witness :
  Nat.iter 2 FallbackBrowserApi_back
    (foldl visit (mkBrowser None [])
       [(js "/", Navigation_new (js "/a") (js "/a") ∅);
        (js "/a", Navigation_new (js "/b") (js "/b") ∅)])
  = mkBrowser None [js "/a"; js "/b"; js "/a"; js "/"].
Proof.
  apply (history_is_a_stack
           [(js "/", Navigation_new (js "/a") (js "/a") ∅);
            (js "/a", Navigation_new (js "/b") (js "/b") ∅)]
           (mkBrowser None [])).
  apply (bool_decide_unpack _). by vm_compute.
Defined.

(** X20: [back] after [setUrl] sends the browser to what follows the last
    ['|'] of the path that was left: to that path itself exactly when it
    holds no ['|']. *)
Theorem back_returns_to_last_piece (current : jsstring) (nav : Navigation)
    (b : Browser) :
  current ≠ url nav →
  ∃ piece,
    last (split (ch "|") None current) = Some piece
    ∧ hrefs (FallbackBrowserApi_back (FallbackBrowserApi_setUrl current nav b))
      = hrefs b ++ [url nav; piece]
    ∧ (piece = current ↔ ch "|" ∉ current).
Proof.
  intros Hne. unfold split.
  assert (∃ ws w, split_all (ch "|") current = ws ++ [w]) as (ws & w & Hsplit).
  { pose proof (split_all_nonempty (ch "|") current) as Hnon.
    destruct (split_all (ch "|") current) as [|w ws _] using rev_ind;
      [done | by eexists _, _]. }
  exists w. rewrite Hsplit, last_snoc. split; [done|]. split.
  - unfold FallbackBrowserApi_setUrl. rewrite bool_decide_eq_true_2 by done.
    cbn zeta. unfold FallbackBrowserApi_back. cbn zeta.
    change (getHistory (set_href ?u ?b0)) with (getHistory b0).
    assert (∃ front, getHistory (setHistory (getHistory b ++ [current]) b)
                     = front ++ [w]) as [front ->].
    { unfold setHistory. rewrite bool_decide_eq_false_2
        by (rewrite length_app; cbn; lia).
      unfold getHistory at 1. cbn [cookie split].
      rewrite (split_all_join_pieces (ch "|")) by (by destruct (getHistory b)).
      rewrite fmap_app, join_app.
      change (mjoin (split_all (ch "|") <$> [current]))
        with (split_all (ch "|") current ++ []).
      rewrite Hsplit, app_nil_r, app_assoc.
      by eexists. }
    rewrite last_snoc. cbn [hrefs set_href]. rewrite hrefs_setHistory.
    cbn [hrefs set_href]. by rewrite hrefs_setHistory, <- app_assoc.
  - pose proof (split_all_no_sep (ch "|") current) as Hall.
    rewrite Hsplit in Hall. apply Forall_app in Hall as [_ [Hw _]%Forall_cons].
    split; [by intros <-|]. intros Hcur.
    rewrite split_all_unfold, bool_decide_eq_false_2 in Hsplit by done.
    rewrite before_not_elem_of in Hsplit by done.
    destruct ws as [|? ws]; [by injection Hsplit as -> | by destruct ws].
Qed.

Lemma back_returns_to_last_piece_witness :
  ∃ piece,
    last (split (ch "|") None (js "/a|b")) = Some piece
    ∧ hrefs (FallbackBrowserApi_back
               (FallbackBrowserApi_setUrl (js "/a|b")
                  (Navigation_new (js "/c") (js "/c") ∅) (mkBrowser None [])))
      = [] ++ [js "/c"; piece]
    ∧ (piece = js "/a|b" ↔ ch "|" ∉ js "/a|b").
Proof.
  apply (back_returns_to_last_piece (js "/a|b")
           (Navigation_new (js "/c") (js "/c") ∅) (mkBrowser None [])).
  by vm_compute.
Defined.
